(** * brief-cases: sum types with [cases] dispatch

    A shallow embedding of [src/index.js] (the factory exported by the
    package) over an explicit object store, and the properties of its
    constructors, of [cases] and of the shared prototype.

    Objects live in a heap and are named by their location, so that two
    instances, two closures or two prototypes are told apart by identity
    and a write to a shared prototype is seen through every reference to
    it.  A property read follows the prototype chain; a property write
    creates or replaces an own data property of the receiver.  Property
    names are plain data-property names: host-defined exotic properties
    (the [__proto__] accessor of [Object.prototype], the read-only
    [name] and [length] of function objects) are not represented.

    The second part of the file adds the program of the test file: the
    [mapLeaf] method attached to a tree type and run on its instances. *)

From stdpp Require Import base strings gmap list.

(** * The model *)

(** ** Values and objects *)

Abbreviation loc := nat.

(** Locations of [Object.prototype] and [Function.prototype]: the first
    two cells of every heap. *)
Definition objproto : loc := 0.
Definition funproto : loc := 1.

(** Primitive values, arrays (kept by content) and references to objects
    and functions (kept by identity).  Numbers are the integers and NaN. *)
#[warnings="-register-all"]
Inductive value :=
| VUndefined
| VNull
| VBool (b : bool)
| VNum (n : Z)
| VNaN
| VStr (s : string)
| VArr (elems : list value)
| VRef (l : loc).

(** ToBoolean. *)
Definition truthy (v : value) : bool :=
  match v with
  | VUndefined | VNull | VNaN => false
  | VBool b => b
  | VNum n => negb (n =? 0)%Z
  | VStr s => negb (String.eqb s "")
  | VArr _ | VRef _ => true
  end.

(** The function bodies that occur in the source, and those of the caller. *)
Inductive code :=
| CSumType                               (* function SumType() {} *)
| CVariant                               (* function Variant(name, args) {...} *)
| CCases                                 (* function(opts) {...} of line 11 *)
| CCtor (name : string) (Variant : loc)  (* (...args) => new Variant(name, args) *)
| CHost (id : nat).                      (* a function written by the caller *)

Record object := Object {
  own : gmap string value;      (* own properties *)
  proto : option loc;           (* [[Prototype]] *)
  callable : option code        (* [[Call]], for function objects *)
}.

Abbreviation heap := (list object).

Inductive error :=
| Error (msg : string)
| TypeError (msg : string).

(** What the body of [cases] ends in: a call in tail position (whose
    completion is the completion of [cases]) or a throw. *)
Inductive outcome :=
| Call (f : loc) (this : loc) (args : list value)
| Throw (e : error).

(** The completion of a call. *)
Inductive completion :=
| Return (v : value)
| Raise (e : error).

(** ** Property access *)

Fixpoint lookup_chain (h : heap) (fuel : nat) (l : loc) (k : string) : value :=
  match fuel with
  | O => VUndefined
  | S fuel =>
      match h !! l with
      | None => VUndefined
      | Some o =>
          match own o !! k with
          | Some v => v
          | None =>
              match proto o with
              | Some p => lookup_chain h fuel p k
              | None => VUndefined
              end
          end
      end
  end.

(** [o[k]]: the first own property named [k] along the prototype chain. *)
Definition get (h : heap) (l : loc) (k : string) : value :=
  lookup_chain h (length h) l k.

Definition set_own (k : string) (v : value) (o : object) : object :=
  Object (<[k:=v]> (own o)) (proto o) (callable o).

(** [o[k] = v]. *)
Definition set (h : heap) (l : loc) (k : string) (v : value) : heap :=
  alter (set_own k v) l h.

Definition del_own (k : string) (o : object) : object :=
  Object (delete k (own o)) (proto o) (callable o).

(** [delete o[k]]. *)
Definition delete_prop (h : heap) (l : loc) (k : string) : heap :=
  alter (del_own k) l h.

(** A new object is stored in the next free cell. *)
Definition alloc (h : heap) (o : object) : heap * loc :=
  (h ++ [o], length h).

(** IsCallable. *)
Definition is_callable (h : heap) (l : loc) : bool :=
  match h !! l with
  | Some o => bool_decide (is_Some (callable o))
  | None => false
  end.


(** [f(...args)] as a method of [this], for a value [f] read from a
    property: a call when [f] is a function, a [TypeError] otherwise
    (the wording of the message is the engine's). *)
Definition invoke (h : heap) (f : value) (this : loc) (args : list value) : outcome :=
  match f with
  | VRef l =>
      if is_callable h l then Call l this args
      else Throw (TypeError "not a function")
  | _ => Throw (TypeError "not a function")
  end.

(** ** The source *)

Definition quote : string := String (Ascii.ascii_of_nat 34) EmptyString.

Definition missing_case (name : string) : error :=
  Error ("cases: missing case for " +:+ quote +:+ name +:+ quote).

(** [Variant.prototype.cases].  The receiver's [_name] is a string and its
    [_args] an array for every object the constructors build; on other
    receivers (whose tag would have to be coerced to a property key) the
    model is undefined. *)
Definition cases (h : heap) (this : loc) (opts : loc) : option outcome :=
  match get h this "_name" with
  | VStr name =>
      if truthy (get h opts name) then
        match get h this "_args" with
        | VArr args => Some (invoke h (get h opts name) opts args)
        | _ => None
        end
      else if truthy (get h opts "_") then Some (invoke h (get h opts "_") opts [])
      else Some (Throw (missing_case name))
  | _ => None
  end.

(** [cases] run against the [[Call]] of the host: [return f(...)]
    completes as the call does, a throw leaves the heap as it is. *)
Section Run.
Variable call : heap → loc → loc → list value → heap * completion.
Definition run_cases (h : heap) (this opts : loc) : option (heap * completion) :=
  match cases h this opts with
  | Some (Call f t args) => Some (call h f t args)
  | Some (Throw e) => Some (h, Raise e)
  | None => None
  end.
End Run.

(** A [function] declaration or expression: the function object and the
    fresh object held by its [prototype] property, linked both ways. *)
Definition function_object (h : heap) (c : code) : heap * loc * loc :=
  let f := length h in
  let p := S (length h) in
  (h ++ [Object {[ "prototype" := VRef p ]} (Some funproto) (Some c);
         Object {[ "constructor" := VRef f ]} (Some objproto) None], f, p).

(** An arrow function has no [prototype] property. *)
Definition arrow_function (h : heap) (c : code) : heap * loc :=
  alloc h (Object ∅ (Some funproto) (Some c)).

(** [Object.create(p)] for an object [p]. *)
Definition object_create (h : heap) (p : loc) : heap * loc :=
  alloc h (Object ∅ (Some p) None).

(** An object literal with the given properties. *)
Definition object_literal (h : heap) (props : gmap string value) : heap * loc :=
  alloc h (Object props (Some objproto) None).

(** [new Variant(name, args)]: the new object inherits from what
    [Variant.prototype] holds at the time of the call; the body of
    [Variant] (lines 4 to 7) then stores the two fields. *)
Definition new_Variant (h : heap) (Variant : loc) (name : string)
    (args : list value) : heap * loc :=
  let p := match get h Variant "prototype" with VRef p => p | _ => objproto end in
  let (h, this) := alloc h (Object ∅ (Some p) None) in
  let h := set h this "_name" (VStr name) in
  let h := set h this "_args" (VArr args) in
  (h, this).

(** A call [ctor(...args)] of one of the closures of line 18.  Calls of
    other functions are not described here. *)
Definition construct (h : heap) (ctor : loc) (args : list value) : option (heap * loc) :=
  match h !! ctor with
  | Some o =>
      match callable o with
      | Some (CCtor name Variant) => Some (new_Variant h Variant name args)
      | _ => None
      end
  | None => None
  end.

(** The objects one call of the factory creates.  The factory returns
    [SumType]; the other fields name the locals of its closure. *)
Record definition := Def {
  SumType : loc;          (* the returned function *)
  surface : loc;          (* SumType.prototype, as line 9 reads it *)
  Variant : loc;
  variant_proto : loc;    (* Variant.prototype after line 9 *)
  cases_fn : loc;         (* the function of line 11 *)
  ctors : list loc        (* the closure made for each name, in order *)
}.

(** One turn of the [forEach] of line 17. *)
Definition bind_variant (SumType Variant : loc) (st : heap * list loc)
    (name : string) : heap * list loc :=
  let (h, ctor) := arrow_function st.1 (CCtor name Variant) in
  (set h SumType name (VRef ctor), st.2 ++ [ctor]).

(** [module.exports = (...variants) => {...}]. *)
Definition define (h : heap) (variants : list string) : heap * definition :=
  let '(h, SumType, surface) := function_object h CSumType in
  let '(h, Variant, _) := function_object h CVariant in
  let (h, vproto) := object_create h surface in
  let h := set h Variant "prototype" (VRef vproto) in
  let '(h, casesfn, _) := function_object h CCases in
  let h := set h vproto "cases" (VRef casesfn) in
  let (h, cs) := foldl (bind_variant SumType Variant) (h, []) variants in
  (h, Def SumType surface Variant vproto casesfn cs).

(** [T[name](...args)]: read the property, call what it holds. *)
Definition call_variant (h : heap) (T : loc) (name : string) (args : list value)
    : option (heap * loc) :=
  match get h T name with
  | VRef ctor => construct h ctor args
  | _ => None
  end.

(** [T.prototype[k] = v] on the prototype object of line 9. *)
Definition attach (h : heap) (D : definition) (k : string) (v : value) : heap :=
  set h (surface D) k v.

(** ** Heap shapes *)

(** Prototype links point to older objects, hence chains are finite;
    the two built-in prototypes are there. *)
Definition links_older (h : heap) : Prop :=
  ∀ l o p, h !! l = Some o → proto o = Some p → p < l.

Definition heap_wf (h : heap) : Prop :=
  2 ≤ length h ∧ links_older h.

Fixpoint links_olderb_from (l : loc) (h : heap) : bool :=
  match h with
  | [] => true
  | o :: h' =>
      match proto o with Some p => p <? l | None => true end
      && links_olderb_from (S l) h'
  end.

Definition heap_wfb (h : heap) : bool :=
  (2 <=? length h) && links_olderb_from 0 h.

(** [a] is on the prototype chain that starts at [l]. *)
Inductive on_chain (h : heap) : loc → loc → Prop :=
| chain_here l : on_chain h l l
| chain_up l o p a :
    h !! l = Some o → proto o = Some p → on_chain h p a → on_chain h l a.

(** [x] carries tag [v] and payload [args] as own fields. *)
Definition tagged (h : heap) (x : loc) (v : string) (args : list value) : Prop :=
  ∃ o, h !! x = Some o ∧ own o !! "_name" = Some (VStr v)
       ∧ own o !! "_args" = Some (VArr args).

(** The shape [new Variant(v, args)] gives an instance of definition [D]. *)
Definition instance_cell (D : definition) (v : string) (args : list value) : object :=
  Object (<["_args" := VArr args]> (<["_name" := VStr v]> ∅))
         (Some (variant_proto D)) None.

Definition value_of (h : heap) (D : definition) (x : loc) (v : string)
    (args : list value) : Prop :=
  h !! x = Some (instance_cell D v args).

(** The objects of [D] are in the heap as the factory left them, up to
    what was attached to the surface since. *)
Definition definition_at (h : heap) (D : definition) : Prop :=
  h !! variant_proto D
    = Some (Object {[ "cases" := VRef (cases_fn D) ]} (Some (surface D)) None)
  ∧ (∃ os, h !! surface D = Some os ∧ proto os = Some objproto
           ∧ callable os = None)
  ∧ (∃ oc, h !! cases_fn D = Some oc ∧ callable oc = Some CCases)
  ∧ (∃ oV, h !! Variant D = Some oV ∧ callable oV = Some CVariant
           ∧ own oV !! "prototype" = Some (VRef (variant_proto D))).

Definition ctor_cell (name : string) (V : loc) : object :=
  Object ∅ (Some funproto) (Some (CCtor name V)).

(** The constructor made for [v] is what [T[v]] holds. *)
Definition bound (h : heap) (D : definition) (v : string) : Prop :=
  ∃ c, get h (SumType D) v = VRef c
       ∧ h !! c = Some (ctor_cell v (Variant D)).

(** The heap as lines 2 to 15 leave it, before the [forEach]. *)
Definition define_prefix (h : heap) : heap :=
  let b := length h in
  h ++ [ Object {[ "prototype" := VRef (b + 1) ]} (Some funproto) (Some CSumType);
         Object {[ "constructor" := VRef b ]} (Some objproto) None;
         Object (<["prototype" := VRef (b + 4)]> {[ "prototype" := VRef (b + 3) ]})
                (Some funproto) (Some CVariant);
         Object {[ "constructor" := VRef (b + 2) ]} (Some objproto) None;
         Object (<["cases" := VRef (b + 5)]> ∅) (Some (b + 1)) None;
         Object {[ "prototype" := VRef (b + 6) ]} (Some funproto) (Some CCases);
         Object {[ "constructor" := VRef (b + 5) ]} (Some objproto) None ].

(** ** Worked scenes *)

(** A host: [Object.prototype] (of its built-in members, [toString] is
    kept), [Function.prototype], the built-in [toString] and two
    functions of the caller. *)
Definition host_heap : heap :=
  [ Object {[ "toString" := VRef 2 ]} None None;
    Object ∅ (Some objproto) (Some (CHost 0));
    Object ∅ (Some funproto) (Some (CHost 1));
    Object ∅ (Some funproto) (Some (CHost 2));
    Object ∅ (Some funproto) (Some (CHost 3)) ].

(** The functions of [host_heap]. *)
Definition builtin_toString : loc := 2.
Definition fn_a : loc := 3.
Definition fn_b : loc := 4.

(** Every host function returns the array of its arguments. *)
Definition collect : heap → loc → loc → list value → heap * completion :=
  λ h _ _ args, (h, Return (VArr args)).

(** A host in which [fn_a] is [v => v + 1] and [fn_b] is [() => -1]. *)
Definition arith (h : heap) (f this : loc) (args : list value)
    : heap * completion :=
  if decide (f = fn_a) then
    match args with
    | VNum n :: _ => (h, Return (VNum (n + 1)))
    | _ => (h, Return VNaN)
    end
  else if decide (f = fn_b) then (h, Return (VNum (-1)))
  else (h, Return VUndefined).

(** [T = define(names); x = T[v](...args); opts = {...lit}]. *)
Definition scene (names : list string) (v : string) (args : list value)
    (lit : gmap string value) : heap * definition * loc * loc :=
  let (h, D) := define host_heap names in
  match call_variant h (SumType D) v args with
  | Some (h, x) => let (h, opts) := object_literal h lit in (h, D, x, opts)
  | None => (h, D, 0, 0)
  end.

Definition scene_heap (s : heap * definition * loc * loc) : heap := s.1.1.1.
Definition scene_def (s : heap * definition * loc * loc) : definition := s.1.1.2.
Definition scene_value (s : heap * definition * loc * loc) : loc := s.1.2.
Definition scene_opts (s : heap * definition * loc * loc) : loc := s.2.

(** [Just(5)] against [{Just: fn_a, Nothing: fn_b}]. *)
Definition full_scene :=
  scene ["Nothing"; "Just"] "Just" [VNum 5]
        {[ "Just" := VRef fn_a; "Nothing" := VRef fn_b ]}.




(** [Just(5)] against [{Just: 0, _: fn_b}]. *)
Definition falsy_scene :=
  scene ["Nothing"; "Just"] "Just" [VNum 5]
        {[ "Just" := VNum 0; "_" := VRef fn_b ]}.


(** [Leaf()] of a tree type, with an empty literal aside. *)
Definition tree_scene := scene ["Leaf"; "Inner"] "Leaf" [] ∅.

(** Two definitions that share the name [Leaf], and a [Leaf(1)] of the
    second. *)
Definition two_trees : heap * definition * definition * loc :=
  let (h, A) := define host_heap ["Leaf"; "Inner"] in
  let (h, B) := define h ["Leaf"; "Node"] in
  match call_variant h (SumType B) "Leaf" [VNum 1] with
  | Some (h, x) => (h, A, B, x)
  | None => (h, A, B, 0)
  end.

(** [define('Nothing', 'Just')] alone. *)
Definition maybe_def : heap * definition := define host_heap ["Nothing"; "Just"].



Ltac evaluate := vm_compute; reflexivity.

Ltac definition_at_by_evaluation :=
  split; [evaluate|];
  split; [eexists; split; [evaluate|split; reflexivity]|];
  split; [eexists; split; [evaluate|reflexivity]|];
  eexists; split; [evaluate|split; [reflexivity|evaluate]].

(** ** Further shapes *)

(** [h'] keeps every object of [h] as it is and may hold more. *)
Definition extends (h h' : heap) : Prop :=
  length h ≤ length h' ∧ ∀ l, l < length h → h' !! l = h !! l.


(** [definition_at], and the returned function itself: a function object
    under [Function.prototype], the surface being none of the built-in
    prototypes. *)
Definition factory_at (h : heap) (D : definition) : Prop :=
  definition_at h D
  ∧ funproto < surface D
  ∧ ∃ oT, h !! SumType D = Some oT ∧ callable oT = Some CSumType
          ∧ proto oT = Some funproto.

(** ** The program of the test file

    [src/unnamed/part_001], lines 3 and 46 to 51:
    [Tree = createSumType('Leaf', 'Inner')] and
    [Tree.prototype.mapLeaf = function(fn) { return this.cases({...}) }].
    Statements run in a heap and end normally, by a throw, or leave
    what is described here. *)

Inductive res (A : Type) :=
| Ok (h : heap) (a : A)     (* normal completion, in the heap reached *)
| Exn (e : error)           (* a throw *)
| NoFuel                    (* the recursion bound was reached *)
| Unmodelled.               (* a step that is not described *)

Arguments Ok {A} h a.
Arguments Exn {A} e.
Arguments NoFuel {A}.
Arguments Unmodelled {A}.

Definition M (A : Type) : Type := heap → res A.

Definition bind {A B : Type} (m : M A) (k : A → M B) : M B :=
  λ h, match m h with
       | Ok h' a => k a h'
       | Exn e => Exn e
       | NoFuel => NoFuel
       | Unmodelled => Unmodelled
       end.

Notation "x <~ m ;; k" := (bind m (λ x, k))
  (at level 100, m at next level, right associativity).

Definition raise {A : Type} (e : error) : M A := λ _, Exn e.
Definition unmodelled {A : Type} : M A := λ _, Unmodelled.
Definition read (l : loc) (k : string) : M value := λ h, Ok h (get h l k).
Definition write (l : loc) (k : string) (v : value) : M unit :=
  λ h, Ok (set h l k v) tt.
Definition fresh (o : object) : M loc := λ h, Ok (h ++ [o]) (length h).

(** The codes of the three functions the program creates. *)
Definition mapLeaf_code : nat := 100.
Definition leaf_code : nat := 101.
Definition inner_code : nat := 102.

(** The [i]th parameter of a call. *)
Definition arg (i : nat) (args : list value) : value := nth i args VUndefined.

(** [recv[k]]; reads on boxed primitives are not described. *)
Definition member (recv : value) (k : string) : M value :=
  match recv with
  | VRef l => read l k
  | VUndefined | VNull => raise (TypeError "cannot read a property")
  | _ => unmodelled
  end.

(** The body behind a function value; a [TypeError] for anything else. *)
Definition code_of (f : value) : M code :=
  λ h, match f with
       | VRef l =>
           match h !! l with
           | Some o =>
               match callable o with
               | Some c => Ok h c
               | None => Exn (TypeError "not a function")
               end
           | None => Exn (TypeError "not a function")
           end
       | _ => Exn (TypeError "not a function")
       end.

(** [c(...args)] for the value [c] read from [Tree.Leaf] or [Tree.Inner]. *)
Definition call_constructor (c : value) (args : list value) : M value :=
  k <~ code_of c ;;
  match k with
  | CCtor name V =>
      λ h, let (h', x) := new_Variant h V name args in Ok h' (VRef x)
  | _ => unmodelled
  end.

(** [this.cases(opts)] up to the call [cases] ends in, for the value
    [cf] read from [this.cases]. *)
Definition call_cases (cf : value) (this opts : loc) : M outcome :=
  k <~ code_of cf ;;
  match k with
  | CCases =>
      λ h, match cases h this opts with
           | Some out => Ok h out
           | None => Unmodelled
           end
  | _ => unmodelled
  end.

(** [recv.mapLeaf(fn)], [body] being the function of line 46. *)
Definition call_mapLeaf (body : loc → M value) (recv : value) : M value :=
  m <~ member recv "mapLeaf" ;;
  k <~ code_of m ;;
  match k, recv with
  | CHost id, VRef this =>
      if decide (id = mapLeaf_code) then body this else unmodelled
  | _, _ => unmodelled
  end.

Section TestProgram.
Variable fn : value → value.      (* the function passed as [fn], pure *)
Variable Tree : loc.              (* what the constant [Tree] holds *)

(** [Tree.prototype.mapLeaf = function(fn) {...}], in strict code. *)
Definition install_mapLeaf : M unit :=
  p <~ read Tree "prototype" ;;
  m <~ (λ h, let '(h', f, _) := function_object h (CHost mapLeaf_code) in
             Ok h' f) ;;
  match p with
  | VRef s => write s "mapLeaf" (VRef m)
  | _ => raise (TypeError "cannot set a property")
  end.

(** What the two arrow functions of the handler map do when [cases]
    ends in a call of one of them:
    [l => Tree.Leaf(fn(l))] and
    [(n, l, r) => Tree.Inner(n, l.mapLeaf(fn), r.mapLeaf(fn))],
    [self] being the function of line 46. *)
Definition handlers (self : loc → M value) (fl fi : loc) (out : outcome)
    : M value :=
  match out with
  | Throw e => raise e
  | Call f _ args =>
      if decide (f = fl) then
        c <~ read Tree "Leaf" ;;
        call_constructor c [fn (arg 0 args)]
      else if decide (f = fi) then
        c <~ read Tree "Inner" ;;
        l <~ call_mapLeaf self (arg 1 args) ;;
        r <~ call_mapLeaf self (arg 2 args) ;;
        call_constructor c [arg 0 args; l; r]
      else unmodelled
  end.

(** The function of line 46, on the receiver [this]:
    [return this.cases({ Leaf: ..., Inner: ... })]. *)
Fixpoint mapLeaf (fuel : nat) (this : loc) : M value :=
  match fuel with
  | O => λ _, NoFuel
  | S fuel =>
      cf <~ read this "cases" ;;
      opts <~ fresh (Object ∅ (Some objproto) None) ;;
      fl <~ fresh (Object ∅ (Some funproto) (Some (CHost leaf_code))) ;;
      u <~ write opts "Leaf" (VRef fl) ;;
      fi <~ fresh (Object ∅ (Some funproto) (Some (CHost inner_code))) ;;
      u <~ write opts "Inner" (VRef fi) ;;
      out <~ call_cases cf this opts ;;
      handlers (mapLeaf fuel) fl fi out
  end.
End TestProgram.

(** The trees of the test, and the instances that stand for them. *)
Inductive tree :=
| TLeaf (label : value)
| TInner (name : value) (left right : tree).

Fixpoint tmap (f : value → value) (t : tree) : tree :=
  match t with
  | TLeaf a => TLeaf (f a)
  | TInner n l r => TInner n (tmap f l) (tmap f r)
  end.

Fixpoint height (t : tree) : nat :=
  match t with
  | TLeaf _ => 0
  | TInner _ l r => S (max (height l) (height r))
  end.

Fixpoint nodes (t : tree) : nat :=
  match t with
  | TLeaf _ => 1
  | TInner _ l r => S (nodes l + nodes r)
  end.

Fixpoint rep (h : heap) (D : definition) (t : tree) (x : loc) : Prop :=
  match t with
  | TLeaf a => value_of h D x "Leaf" [a]
  | TInner n l r =>
      ∃ xl xr, value_of h D x "Inner" [n; VRef xl; VRef xr]
               ∧ rep h D l xl ∧ rep h D r xr
  end.

(** The handler map of one call of [mapLeaf] and its two functions, as
    they are allocated from location [b] on. *)
Definition handler_cells (b : loc) : list object :=
  [ Object (<["Inner" := VRef (b + 2)]> (<["Leaf" := VRef (b + 1)]> ∅))
           (Some objproto) None;
    Object ∅ (Some funproto) (Some (CHost leaf_code));
    Object ∅ (Some funproto) (Some (CHost inner_code)) ].

(** The state the first lines of the test reach: the definition with
    its two constructors, and [mapLeaf] on its surface. *)
Definition tree_program_at (h : heap) (D : definition) : Prop :=
  heap_wf h ∧ definition_at h D ∧ bound h D "Leaf" ∧ bound h D "Inner"
  ∧ ∃ os m om, h !! surface D = Some os
               ∧ own os !! "mapLeaf" = Some (VRef m)
               ∧ h !! m = Some om
               ∧ callable om = Some (CHost mapLeaf_code).

(** [x => x * 2] on numbers; the other values are sent to [NaN] here. *)
Definition double (v : value) : value :=
  match v with
  | VNum n => VNum (n * 2)
  | _ => VNaN
  end.

(** [T[name](...args)] as a statement. *)
Definition construct_stmt (T : loc) (name : string) (args : list value) : M value :=
  c <~ read T name ;; call_constructor c args.

(** Lines 3, 46 and 54 of the test:
    [Tree = createSumType('Leaf', 'Inner')], the assignment of [mapLeaf]
    and [t1 = Tree.Inner('root', Tree.Leaf(0), Tree.Leaf(4))]. *)
Definition test_tree : tree :=
  TInner (VStr "root") (TLeaf (VNum 0)) (TLeaf (VNum 4)).

Definition test_scene : res (definition * loc) :=
  let (h, D) := define host_heap ["Leaf"; "Inner"] in
  let T := SumType D in
  (u <~ install_mapLeaf T ;;
   a <~ construct_stmt T "Leaf" [VNum 0] ;;
   b <~ construct_stmt T "Leaf" [VNum 4] ;;
   t1 <~ construct_stmt T "Inner" [VStr "root"; a; b] ;;
   match t1 with
   | VRef x => (λ h, Ok h (D, x))
   | _ => unmodelled
   end) h.

(** The factory, the assignment of [mapLeaf], and one instance. *)
Definition program_scene (names : list string) (v : string) (args : list value)
    : res (definition * loc) :=
  let (h, D) := define host_heap names in
  let T := SumType D in
  (u <~ install_mapLeaf T ;;
   s <~ construct_stmt T v args ;;
   match s with
   | VRef x => (λ h, Ok h (D, x))
   | _ => unmodelled
   end) h.

(** A third variant and an instance of it; an [Inner] without fields;
    a [Leaf] of two fields. *)
Definition stump_scene := program_scene ["Leaf"; "Inner"; "Stump"] "Stump" [].
Definition childless_scene := program_scene ["Leaf"; "Inner"] "Inner" [].
Definition wide_leaf_scene :=
  program_scene ["Leaf"; "Inner"] "Leaf" [VNum 1; VNum 2].

(** A variant named after a member of [Object.prototype]. *)
Definition toString_scene := scene ["toString"] "toString" [VNum 1] ∅.

Definition res_heap {A : Type} (r : res A) : heap :=
  match r with Ok h _ => h | _ => [] end.
Definition res_def {A : Type} (r : res (definition * A)) : definition :=
  match r with Ok _ (D, _) => D | _ => Def 0 0 0 0 0 [] end.
Definition res_loc (r : res (definition * loc)) : loc :=
  match r with Ok _ (_, x) => x | _ => 0 end.

(** Line 56 of the test: [t1.mapLeaf(x => x * 2)]. *)
Definition test_run : res value :=
  call_mapLeaf (mapLeaf double (SumType (res_def test_scene)) 5)
               (VRef (res_loc test_scene)) (res_heap test_scene).

(** [define('Leaf', 'Inner')] alone. *)
Definition tree_def : heap * definition := define host_heap ["Leaf"; "Inner"].

(** * Properties *)

(** ** Reads *)

Lemma lookup_chain_fuel h k :
  links_older h →
  ∀ f1 f2 l, l < f1 → l < f2 → lookup_chain h f1 l k = lookup_chain h f2 l k.
Proof.
  intros Hw. induction f1 as [|f1 IH]; intros f2 l H1 H2; [lia|].
  destruct f2 as [|f2]; [lia|]. simpl.
  destruct (h !! l) as [o|] eqn:Hl; [|done].
  destruct (own o !! k); [done|].
  destruct (proto o) as [p|] eqn:Hp; [|done].
  specialize (Hw _ _ _ Hl Hp). apply IH; lia.
Qed.

Lemma get_unfold h l o k :
  heap_wf h → h !! l = Some o →
  get h l k = match own o !! k with
              | Some v => v
              | None => match proto o with
                        | Some p => get h p k
                        | None => VUndefined
                        end
              end.
Proof.
  intros [_ Hw] Hl. unfold get.
  pose proof (lookup_lt_Some _ _ _ Hl) as Hlt.
  rewrite (lookup_chain_fuel h k Hw (length h) (S l) l) by lia.
  simpl. rewrite Hl.
  destruct (own o !! k); [done|].
  destruct (proto o) as [p|] eqn:Hp; [|done].
  pose proof (Hw _ _ _ Hl Hp). apply lookup_chain_fuel; [done|lia|lia].
Qed.

Lemma get_own h l o k v :
  h !! l = Some o → own o !! k = Some v → get h l k = v.
Proof.
  intros Hl Hk. unfold get.
  pose proof (lookup_lt_Some _ _ _ Hl) as Hlt.
  destruct (length h) as [|n]; [lia|]. simpl. by rewrite Hl, Hk.
Qed.

Lemma get_dangling h l k : h !! l = None → get h l k = VUndefined.
Proof.
  intros Hl. unfold get. destruct (length h); [done|]. simpl. by rewrite Hl.
Qed.

Create HintDb heap discriminated.
#[local] Hint Resolve get_own lookup_app_l_Some : heap.

Lemma tagged_name h x v args : tagged h x v args → get h x "_name" = VStr v.
Proof. intros (o & Hx & Hn & _). eauto with heap. Qed.

Lemma tagged_args h x v args : tagged h x v args → get h x "_args" = VArr args.
Proof. intros (o & Hx & _ & Ha). eauto with heap. Qed.

Lemma value_of_tagged h D x v args : value_of h D x v args → tagged h x v args.
Proof.
  intros Hx. exists (instance_cell D v args). split; [done|].
  split; simpl; [by rewrite lookup_insert_ne, lookup_insert_eq|by rewrite lookup_insert_eq].
Qed.

Lemma objproto_top h o : heap_wf h → h !! objproto = Some o → proto o = None.
Proof.
  intros [_ Hw] Ho. destruct (proto o) as [p|] eqn:Hp; [|done].
  pose proof (Hw _ _ _ Ho Hp). unfold objproto in *. lia.
Qed.

(** ** Writes and allocation *)

Lemma length_set h l k v : length (set h l k v) = length h.
Proof. apply length_alter. Qed.

Lemma set_lookup h l k v o :
  h !! l = Some o → set h l k v !! l = Some (set_own k v o).
Proof. intros Hl. unfold set. by rewrite list_lookup_alter_eq, Hl. Qed.

Lemma set_lookup_ne h l l' k v : l ≠ l' → set h l k v !! l' = h !! l'.
Proof. intros. unfold set. by rewrite list_lookup_alter_ne. Qed.

Lemma set_proto h a k v l o :
  set h a k v !! l = Some o → ∃ o', h !! l = Some o' ∧ proto o' = proto o
                                     ∧ callable o' = callable o.
Proof.
  destruct (decide (a = l)) as [->|Hne].
  - unfold set. rewrite list_lookup_alter_eq.
    destruct (h !! l) as [o'|]; [|done]. intros [= <-]. by exists o'.
  - rewrite set_lookup_ne by done. intros. by exists o.
Qed.

Lemma set_wf h a k v : heap_wf h → heap_wf (set h a k v).
Proof.
  intros [Hlen Hw]. split; [by rewrite length_set|].
  intros l o p Hl Hp. destruct (set_proto _ _ _ _ _ _ Hl) as (o' & Hl' & Hpe & _).
  eapply Hw; [done|congruence].
Qed.

Lemma app_wf h o :
  heap_wf h → (∀ p, proto o = Some p → p < length h) → heap_wf (h ++ [o]).
Proof.
  intros [Hlen Hw] Ho. split; [rewrite length_app; lia|].
  intros l o' p Hl Hp. destruct (decide (l < length h)) as [Hlt|Hge].
  - rewrite lookup_app_l in Hl by done. eauto.
  - rewrite lookup_app_r in Hl by lia.
    destruct (l - length h) as [|n] eqn:Hd; simpl in Hl; [|done].
    injection Hl as <-. specialize (Ho _ Hp). lia.
Qed.

Lemma lookup_chain_app h h' k :
  links_older h →
  ∀ f l, l < length h → lookup_chain (h ++ h') f l k = lookup_chain h f l k.
Proof.
  intros Hw. induction f as [|f IH]; intros l Hl; [done|]. simpl.
  rewrite lookup_app_l by done.
  destruct (h !! l) as [o|] eqn:Ho; [|done].
  destruct (own o !! k); [done|].
  destruct (proto o) as [p|] eqn:Hp; [|done].
  specialize (Hw _ _ _ Ho Hp). apply IH. lia.
Qed.

(** Allocation leaves every read on an older object as it was. *)
Lemma get_app h h' l k :
  heap_wf h → l < length h → get (h ++ h') l k = get h l k.
Proof.
  intros [_ Hw] Hl. unfold get. rewrite lookup_chain_app by done.
  apply lookup_chain_fuel; [done| |done]. rewrite length_app. lia.
Qed.

(** A write changes no read of another key. *)
Lemma lookup_chain_set_ne h a k v k' :
  k ≠ k' → ∀ f l, lookup_chain (set h a k v) f l k' = lookup_chain h f l k'.
Proof.
  intros Hk. induction f as [|f IH]; intros l; [done|]. simpl.
  destruct (decide (a = l)) as [->|Hne].
  - unfold set at 1. rewrite list_lookup_alter_eq.
    destruct (h !! l) as [o|]; [|done]. simpl.
    rewrite lookup_insert_ne by done.
    destruct (own o !! k'); [done|]. destruct (proto o); [apply IH|done].
  - rewrite set_lookup_ne by done.
    destruct (h !! l) as [o|]; [|done].
    destruct (own o !! k'); [done|]. destruct (proto o); [apply IH|done].
Qed.

Lemma get_set_ne h a k v l k' : k ≠ k' → get (set h a k v) l k' = get h l k'.
Proof. intros. unfold get. rewrite length_set. by apply lookup_chain_set_ne. Qed.

(** A write changes no read whose chain avoids the written object. *)
Lemma lookup_chain_set_off h a k v k' :
  ∀ f l, ¬ on_chain h l a →
         lookup_chain (set h a k v) f l k' = lookup_chain h f l k'.
Proof.
  induction f as [|f IH]; intros l Hoff; [done|]. simpl.
  assert (a ≠ l) as Hne by (intros ->; apply Hoff; constructor).
  rewrite set_lookup_ne by done.
  destruct (h !! l) as [o|] eqn:Hl; [|done].
  destruct (own o !! k'); [done|].
  destruct (proto o) as [p|] eqn:Hp; [|done].
  apply IH. intros Hc. apply Hoff. by eapply chain_up.
Qed.

Lemma get_set_off h a k v l k' :
  ¬ on_chain h l a → get (set h a k v) l k' = get h l k'.
Proof. intros. unfold get. rewrite length_set. by apply lookup_chain_set_off. Qed.

Lemma is_callable_set h a k v l : is_callable (set h a k v) l = is_callable h l.
Proof.
  unfold is_callable. destruct (decide (a = l)) as [->|Hne].
  - unfold set. rewrite list_lookup_alter_eq. by destruct (h !! l).
  - by rewrite set_lookup_ne.
Qed.

Lemma invoke_set h a k v f this args :
  invoke (set h a k v) f this args = invoke h f this args.
Proof. destruct f; simpl; try done. by rewrite is_callable_set. Qed.

Lemma lookup_chain_delete_ne h a k k' :
  k ≠ k' → ∀ f l, lookup_chain (delete_prop h a k) f l k' = lookup_chain h f l k'.
Proof.
  intros Hk. induction f as [|f IH]; intros l; [done|]. simpl.
  destruct (decide (a = l)) as [->|Hne].
  - unfold delete_prop at 1. rewrite list_lookup_alter_eq.
    destruct (h !! l) as [o|]; [|done]. simpl.
    rewrite lookup_delete_ne by done.
    destruct (own o !! k'); [done|]. destruct (proto o); [apply IH|done].
  - unfold delete_prop at 1. rewrite list_lookup_alter_ne by done.
    destruct (h !! l) as [o|]; [|done].
    destruct (own o !! k'); [done|]. destruct (proto o); [apply IH|done].
Qed.

Lemma get_delete_ne h a k l k' :
  k ≠ k' → get (delete_prop h a k) l k' = get h l k'.
Proof.
  intros. unfold get.
  assert (length (delete_prop h a k) = length h) as -> by apply length_alter.
  by apply lookup_chain_delete_ne.
Qed.

Lemma is_callable_delete h a k l :
  is_callable (delete_prop h a k) l = is_callable h l.
Proof.
  unfold is_callable, delete_prop. destruct (decide (a = l)) as [->|Hne].
  - rewrite list_lookup_alter_eq. by destruct (h !! l).
  - by rewrite list_lookup_alter_ne.
Qed.

Lemma invoke_delete h a k f this args :
  invoke (delete_prop h a k) f this args = invoke h f this args.
Proof. destruct f; simpl; try done. by rewrite is_callable_delete. Qed.

Lemma tagged_delete h a k x v args :
  a ≠ x → tagged h x v args → tagged (delete_prop h a k) x v args.
Proof.
  intros Hne (o & Hx & Hn & Ha). exists o. split; [|done].
  unfold delete_prop. by rewrite list_lookup_alter_ne.
Qed.

Lemma links_olderb_from_spec h :
  ∀ n, links_olderb_from n h = true →
       ∀ i o p, h !! i = Some o → proto o = Some p → p < n + i.
Proof.
  induction h as [|o' h IH]; intros n Hb i o p Hi Hp; [done|].
  simpl in Hb. apply andb_true_iff in Hb as [Hhd Htl].
  destruct i as [|i]; simpl in Hi.
  - injection Hi as ->. rewrite Hp in Hhd. apply Nat.ltb_lt in Hhd. lia.
  - pose proof (IH _ Htl _ _ _ Hi Hp). lia.
Qed.

Lemma heap_wfb_spec h : heap_wfb h = true → heap_wf h.
Proof.
  intros [Hlen Hl]%andb_true_iff. split; [by apply Nat.leb_le|].
  intros l o p Ho Hp. by apply (links_olderb_from_spec _ _ Hl _ _ _ Ho Hp).
Qed.

Lemma heap_wf_host : heap_wf host_heap.
Proof. apply heap_wfb_spec. evaluate. Qed.

(** ** The branches of [cases] *)

Lemma invoke_callable h f this args :
  is_callable h f = true → invoke h (VRef f) this args = Call f this args.
Proof. intros Hf. simpl. by rewrite Hf. Qed.


(** The three branches of [cases] on a receiver built by a constructor. *)
Lemma cases_tagged h x v args opts :
  tagged h x v args →
  cases h x opts
  = Some (if truthy (get h opts v) then invoke h (get h opts v) opts args
          else if truthy (get h opts "_") then invoke h (get h opts "_") opts []
          else Throw (missing_case v)).
Proof.
  intros Hx. unfold cases.
  rewrite (tagged_name _ _ _ _ Hx), (tagged_args _ _ _ _ Hx).
  destruct (truthy (get h opts v)); [done|].
  by destruct (truthy (get h opts "_")).
Qed.

(** ** The factory *)

Lemma define_unfold h names :
  define h names =
  let b := length h in
  let (h', cs) := foldl (bind_variant b (b + 2)) (define_prefix h, []) names in
  (h', Def b (b + 1) (b + 2) (b + 4) (b + 5) cs).
Proof.
  unfold define, function_object, object_create, alloc, set, define_prefix.
  cbn zeta. rewrite !length_alter, !length_app. cbn [length].
  rewrite <- !app_assoc. cbn [app].
  rewrite <- !Nat.add_assoc. cbn [Nat.add].
  rewrite alter_app_r. cbn [alter list_alter].
  rewrite <- app_assoc. cbn [app].
  rewrite alter_app_r. cbn [alter list_alter].
  unfold set_own. cbn [own proto callable].
  replace (S (length h)) with (length h + 1) by lia.
  replace (S (length h + 2)) with (length h + 3) by lia.
  replace (S (length h + 5)) with (length h + 6) by lia.
  reflexivity.
Qed.

(** What the [forEach] does to a heap in which [T] is allocated. *)
Lemma bind_fold T V names :
  ∀ (h : heap) cs oT, h !! T = Some oT →
  ∃ h' oT',
    foldl (bind_variant T V) (h, cs) names
      = (h', cs ++ seq (length h) (length names))
    ∧ length h' = length h + length names
    ∧ (∀ l, l < length h → l ≠ T → h' !! l = h !! l)
    ∧ (∀ i name, names !! i = Some name →
         h' !! (length h + i) = Some (ctor_cell name V))
    ∧ h' !! T = Some oT' ∧ proto oT' = proto oT ∧ callable oT' = callable oT
    ∧ (∀ k, k ∉ names → own oT' !! k = own oT !! k)
    ∧ (∀ l1 n l2, names = l1 ++ n :: l2 → n ∉ l2 →
         own oT' !! n = Some (VRef (length h + length l1))).
Proof.
  induction names as [|a rest IH]; intros h cs oT HT.
  - exists h, oT. simpl. rewrite app_nil_r.
    repeat split; try done; try lia.
    intros [|??] ?? Heq; done.
  - pose proof (lookup_lt_Some _ _ _ HT) as HTlt.
    set (h1 := set (h ++ [ctor_cell a V]) T a (VRef (length h))).
    assert (h1 !! T = Some (set_own a (VRef (length h)) oT)) as HT1.
    { apply set_lookup. by apply lookup_app_l_Some. }
    assert (length h1 = S (length h)) as Hlen1.
    { unfold h1. rewrite length_set, length_app. simpl. lia. }
    destruct (IH h1 (cs ++ [length h]) _ HT1)
      as (h' & oT' & Hfold & Hlen & Hframe & Hcl & HT' & Hp & Hc & Hown & Hlast).
    exists h', oT'.
    assert (∀ l, l ≠ T → h1 !! l = (h ++ [ctor_cell a V]) !! l) as Hh1.
    { intros l Hl. unfold h1. by rewrite set_lookup_ne. }
    repeat split.
    + cbn [foldl].
      change (bind_variant T V (h, cs) a) with (h1, cs ++ [length h]).
      rewrite Hfold, Hlen1, <- app_assoc. done.
    + rewrite Hlen, Hlen1. simpl. lia.
    + intros l Hl Hne. rewrite Hframe by lia. rewrite Hh1 by done.
      by rewrite lookup_app_l.
    + intros [|i] name Hi; simpl in Hi.
      * injection Hi as ->. rewrite Nat.add_0_r, Hframe by lia.
        rewrite Hh1 by lia. by rewrite list_lookup_middle.
      * rewrite <- (Hcl i name Hi). f_equal. lia.
    + done.
    + rewrite Hp. done.
    + rewrite Hc. done.
    + intros k Hk. apply not_elem_of_cons in Hk as [Hka Hkr].
      rewrite Hown by done. simpl. by rewrite lookup_insert_ne.
    + intros l1 n l2 Heq Hn. destruct l1 as [|b l1]; simpl in Heq.
      * injection Heq as -> ->. rewrite Hown by done. simpl.
        rewrite lookup_insert_eq. do 2 f_equal. lia.
      * injection Heq as -> ->. rewrite (Hlast l1 n l2) by done.
        do 2 f_equal. simpl. lia.
Qed.

Lemma define_prefix_length h : length (define_prefix h) = length h + 7.
Proof. unfold define_prefix. cbn zeta. rewrite length_app. done. Qed.

Lemma define_prefix_old h l : l < length h → define_prefix h !! l = h !! l.
Proof. intros. unfold define_prefix. cbn zeta. by rewrite lookup_app_l. Qed.

Lemma define_prefix_new h i :
  define_prefix h !! (length h + i)
  = (drop (length h) (define_prefix h)) !! i.
Proof. by rewrite lookup_drop. Qed.

Lemma define_prefix_drop h :
  drop (length h) (define_prefix h)
  = let b := length h in
    [ Object {[ "prototype" := VRef (b + 1) ]} (Some funproto) (Some CSumType);
      Object {[ "constructor" := VRef b ]} (Some objproto) None;
      Object (<["prototype" := VRef (b + 4)]> {[ "prototype" := VRef (b + 3) ]})
             (Some funproto) (Some CVariant);
      Object {[ "constructor" := VRef (b + 2) ]} (Some objproto) None;
      Object (<["cases" := VRef (b + 5)]> ∅) (Some (b + 1)) None;
      Object {[ "prototype" := VRef (b + 6) ]} (Some funproto) (Some CCases);
      Object {[ "constructor" := VRef (b + 5) ]} (Some objproto) None ].
Proof. unfold define_prefix. cbn zeta. by rewrite drop_app_length. Qed.

(** The heap and the definition a call of the factory returns. *)
Lemma define_spec h names :
  heap_wf h →
  let b := length h in
  let D := Def b (b + 1) (b + 2) (b + 4) (b + 5) (seq (b + 7) (length names)) in
  ∃ h', define h names = (h', D)
    ∧ length h' = b + 7 + length names
    ∧ heap_wf h'
    ∧ (∀ l, l < b → h' !! l = h !! l)
    ∧ definition_at h' D
    ∧ (∀ i name, names !! i = Some name →
         h' !! (b + 7 + i) = Some (ctor_cell name (Variant D)))
    ∧ (∃ oT, h' !! SumType D = Some oT ∧ callable oT = Some CSumType
         ∧ (∀ l1 n l2, names = l1 ++ n :: l2 → n ∉ l2 →
              own oT !! n = Some (VRef (b + 7 + length l1)))).
Proof.
  intros [Hlen Hw] b D.
  assert (define_prefix h !! b = Some
            (Object {[ "prototype" := VRef (b + 1) ]} (Some funproto) (Some CSumType)))
    as HT.
  { replace b with (length h + 0) at 1 by (unfold b; lia).
    rewrite define_prefix_new, define_prefix_drop. done. }
  destruct (bind_fold b (b + 2) names _ [] _ HT)
    as (h' & oT' & Hfold & Hlen' & Hframe & Hcl & HT' & Hp & Hc & _ & Hlast).
  rewrite define_prefix_length in Hlen', Hfold, Hcl, Hlast.
  fold b in Hlen', Hfold, Hcl, Hlast.
  assert (∀ i, 0 < i < 7 →
            h' !! (b + i) = drop (length h) (define_prefix h) !! i) as Hnew.
  { intros i Hi. rewrite Hframe by (rewrite ?define_prefix_length; fold b; lia).
    apply define_prefix_new. }
  rewrite define_prefix_drop in Hnew. cbn zeta in Hnew. fold b in Hnew.
  assert (∀ l, l < b → h' !! l = h !! l) as Hold.
  { intros l Hl. rewrite Hframe by (rewrite ?define_prefix_length; fold b; lia).
    by apply define_prefix_old. }
  exists h'. split; [|split; [|split; [|split; [|split; [|split]]]]].
  - rewrite define_unfold. cbn zeta. fold b. by rewrite Hfold.
  - lia.
  - split; [lia|]. intros l o p Hl Hpo.
    pose proof (lookup_lt_Some _ _ _ Hl) as Hlt.
    destruct (decide (l < b)) as [Hlb|Hlb].
    { rewrite Hold in Hl by done. eauto. }
    destruct (decide (l < b + 7)) as [Hl7|Hl7].
    + replace l with (b + (l - b)) in Hl by lia.
      destruct (l - b) as [|[|[|[|[|[|[|i]]]]]]] eqn:Hi; [| | | | | | |lia].
      * rewrite Nat.add_0_r, HT' in Hl. injection Hl as <-.
        rewrite Hp in Hpo. injection Hpo as <-. unfold funproto. lia.
      * rewrite Hnew in Hl by lia. injection Hl as <-.
        injection Hpo as <-. unfold objproto. lia.
      * rewrite Hnew in Hl by lia. injection Hl as <-.
        injection Hpo as <-. unfold funproto. lia.
      * rewrite Hnew in Hl by lia. injection Hl as <-.
        injection Hpo as <-. unfold objproto. lia.
      * rewrite Hnew in Hl by lia. injection Hl as <-.
        injection Hpo as <-. lia.
      * rewrite Hnew in Hl by lia. injection Hl as <-.
        injection Hpo as <-. unfold funproto. lia.
      * rewrite Hnew in Hl by lia. injection Hl as <-.
        injection Hpo as <-. unfold objproto. lia.
    + destruct (lookup_lt_is_Some_2 names (l - (b + 7))) as [name Hname]; [lia|].
      apply Hcl in Hname. replace (b + 7 + (l - (b + 7))) with l in Hname by lia.
      rewrite Hname in Hl. injection Hl as <-.
      injection Hpo as <-. unfold funproto. lia.
  - done.
  - unfold definition_at. cbn [variant_proto surface cases_fn Variant D].
    rewrite !Hnew by lia. cbn [lookup list_lookup].
    split; [done|]. split; [by eexists|]. split; [by eexists|].
    eexists. split; [done|]. split; [done|]. simpl. by rewrite lookup_insert_eq.
  - done.
  - exists oT'. split; [done|]. split; [by rewrite Hc|]. done.
Qed.

Lemma define_bound h names h' D v :
  heap_wf h → define h names = (h', D) → v ∈ names → bound h' D v.
Proof.
  intros Hwf Hdef Hv.
  destruct (define_spec h names Hwf)
    as (h1 & Hdef1 & _ & _ & _ & _ & Hcl & oT & HT & _ & Hlast).
  rewrite Hdef in Hdef1. injection Hdef1 as <- ->.
  apply list_elem_of_split_r in Hv as (l1 & l2 & Hnames & Hnot).
  exists (length h + 7 + length l1). split.
  - eapply get_own; [exact HT|]. by apply (Hlast l1 v l2).
  - apply Hcl. rewrite Hnames. by rewrite list_lookup_middle.
Qed.

(** Two calls of the factory give two surfaces. *)
Lemma define_fresh_surface h A names h' B :
  heap_wf h → definition_at h A → define h names = (h', B) →
  surface A ≠ surface B ∧ definition_at h' A ∧ definition_at h' B.
Proof.
  intros Hwf HA Hdef.
  destruct (define_spec h names Hwf) as (h1 & Hdef1 & _ & _ & Hold & HB & _).
  rewrite Hdef in Hdef1. injection Hdef1 as <- ->.
  pose proof HA as (Hvp & (os & Hs & Hps & Hcs) & (oc & Hc & Hcc) & (oV & HV & HVc & HVp)).
  split; [|split; [|done]].
  - apply lookup_lt_Some in Hs. simpl. lia.
  - split; [by rewrite Hold by (by eapply lookup_lt_Some)|].
    split; [exists os; by rewrite Hold by (by eapply lookup_lt_Some)|].
    split; [exists oc; by rewrite Hold by (by eapply lookup_lt_Some)|].
    exists oV; by rewrite Hold by (by eapply lookup_lt_Some).
Qed.

(** ** Instances *)

Lemma new_Variant_eq h D v args :
  definition_at h D →
  new_Variant h (Variant D) v args = (h ++ [instance_cell D v args], length h).
Proof.
  intros (_ & _ & _ & oV & HV & _ & Hproto).
  unfold new_Variant. rewrite (get_own _ _ _ _ _ HV Hproto).
  unfold alloc, set.
  replace (length h) with (length h + 0) at 1 2 by lia.
  rewrite alter_app_r. cbn [alter list_alter]. rewrite alter_app_r. done.
Qed.

Lemma construct_eq h D c v args :
  definition_at h D → h !! c = Some (ctor_cell v (Variant D)) →
  construct h c args = Some (h ++ [instance_cell D v args], length h).
Proof.
  intros HD Hc. unfold construct. rewrite Hc. simpl. by rewrite new_Variant_eq.
Qed.

Lemma call_variant_eq h D v args :
  definition_at h D → bound h D v →
  call_variant h (SumType D) v args
  = Some (h ++ [instance_cell D v args], length h).
Proof.
  intros HD (c & Hg & Hc). unfold call_variant. rewrite Hg.
  by eapply construct_eq.
Qed.

Lemma definition_at_app h h' D : definition_at h D → definition_at (h ++ h') D.
Proof.
  intros (Hvp & (os & Hs & ?) & (oc & Hc & ?) & (oV & HV & ?)).
  split; [auto with heap|].
  split; [exists os; auto with heap|].
  split; [exists oc; auto with heap|].
  exists oV; auto with heap.
Qed.

Lemma value_of_app h h' D x v args :
  value_of h D x v args → value_of (h ++ h') D x v args.
Proof. apply lookup_app_l_Some. Qed.

Lemma bound_app h h' D v : heap_wf h → bound h D v → bound (h ++ h') D v.
Proof.
  intros Hwf (c & Hg & Hc). exists c. split; [|by apply lookup_app_l_Some].
  destruct (decide (SumType D < length h)) as [Hlt|Hge].
  - by rewrite get_app.
  - rewrite get_dangling in Hg; [done|]. apply lookup_ge_None. lia.
Qed.

(** Two instances of the same shape answer every read and every
    dispatch alike. *)
Lemma same_shape_same_behaviour h D x1 x2 v args :
  heap_wf h → value_of h D x1 v args → value_of h D x2 v args →
  (∀ k, get h x1 k = get h x2 k)
  ∧ (∀ opts, cases h x1 opts = cases h x2 opts).
Proof.
  intros Hwf H1 H2. split.
  - intros k. by rewrite (get_unfold _ _ _ _ Hwf H1), (get_unfold _ _ _ _ Hwf H2).
  - intros opts.
    rewrite (cases_tagged _ _ v args) by eauto using value_of_tagged.
    by rewrite (cases_tagged _ x2 v args) by eauto using value_of_tagged.
Qed.

(** The chain of an instance: itself, [Variant.prototype], the surface,
    [Object.prototype]. *)
Lemma value_chain h D x v args a :
  heap_wf h → definition_at h D → value_of h D x v args → on_chain h x a →
  a = x ∨ a = variant_proto D ∨ a = surface D ∨ a = objproto.
Proof.
  intros Hwf (Hvp & (os & Hs & Hps & _) & _) Hx Hc.
  inversion Hc as [|? o p ? Ho Hp Hc1]; subst; [by left|].
  rewrite Hx in Ho. injection Ho as <-. injection Hp as <-.
  inversion Hc1 as [|? o p ? Ho Hp Hc2]; subst; [by right; left|].
  rewrite Hvp in Ho. injection Ho as <-. injection Hp as <-.
  inversion Hc2 as [|? o p ? Ho Hp Hc3]; subst; [by right; right; left|].
  rewrite Hs in Ho. injection Ho as <-. rewrite Hps in Hp. injection Hp as <-.
  inversion Hc3 as [|? o p ? Ho Hp Hc4]; subst; [by right; right; right|].
  by rewrite (objproto_top _ _ Hwf Ho) in Hp.
Qed.

(** A surface is neither an instance, nor a [Variant.prototype], nor
    [Object.prototype]. *)
Lemma surface_apart h A B x v args :
  heap_wf h → definition_at h A → definition_at h B → value_of h B x v args →
  surface A ≠ x ∧ surface A ≠ variant_proto B ∧ surface A ≠ objproto.
Proof.
  intros Hwf (_ & (oa & Ha & Hpa & _) & _) (Hvp & (ob & Hb & Hpb & _) & _) Hx.
  pose proof Hwf as [_ Hw].
  split; [|split].
  - intros Heq. rewrite Heq, Hx in Ha. injection Ha as <-.
    injection Hpa as Hz. pose proof (Hw _ _ _ Hvp eq_refl).
    pose proof (lookup_lt_Some _ _ _ Hb). unfold objproto in *. lia.
  - intros Heq. rewrite Heq, Hvp in Ha. injection Ha as <-.
    injection Hpa as Hz. pose proof (Hw _ _ _ Hb Hpb). unfold objproto in *. lia.
  - intros Heq. pose proof (Hw _ _ _ Ha Hpa). unfold objproto in *. lia.
Qed.

Lemma surface_not_function h A B :
  definition_at h A → definition_at h B →
  surface A ≠ cases_fn B ∧ surface A ≠ Variant B.
Proof.
  intros (_ & (oa & Ha & _ & Hca) & _) (_ & _ & (oc & Hc & Hcc) & (oV & HV & HVc & _)).
  split; intros Heq; rewrite Heq in Ha; congruence.
Qed.

(** Instances and definitions stay what they are when a property is
    attached to a surface, their own or another. *)
Lemma definition_at_attach h A B n b :
  heap_wf h → definition_at h A → definition_at h B →
  definition_at (attach h A n b) B.
Proof.
  intros Hwf HA HB. unfold attach.
  destruct (surface_not_function _ _ _ HA HB) as [Hnc HnV].
  pose proof HA as (_ & (oa & Ha & Hpa & _) & _).
  pose proof HB as (Hvp & (os & Hs & Hps & Hcs) & (oc & Hc & Hcc) & (oV & HV & HVc & HVp)).
  assert (surface A ≠ variant_proto B) as Hnv.
  { intros Heq. rewrite Heq, Hvp in Ha. injection Ha as <-.
    injection Hpa as Hz. destruct Hwf as [_ Hw].
    pose proof (Hw _ _ _ Hs Hps). unfold objproto in *. lia. }
  split; [by rewrite set_lookup_ne|].
  split; [|split].
  - destruct (decide (surface A = surface B)) as [Heq|Hne].
    + rewrite Heq. exists (set_own n b os). split; [by apply set_lookup|done].
    + exists os. by rewrite set_lookup_ne.
  - exists oc. by rewrite set_lookup_ne.
  - exists oV. by rewrite set_lookup_ne.
Qed.

Lemma value_of_attach h A B x v args n b :
  heap_wf h → definition_at h A → definition_at h B → value_of h B x v args →
  value_of (attach h A n b) B x v args.
Proof.
  intros Hwf HA HB Hx.
  destruct (surface_apart _ _ _ _ _ _ Hwf HA HB Hx) as (Hax & _).
  unfold value_of, attach. by rewrite set_lookup_ne.
Qed.

(** ** Dispatch *)

(** C1.  If the handler map yields a function under the value's own tag,
    [cases] makes exactly one call: that function, as a method of the
    map, on the payload in order; it makes no call of the fallback and
    completes as that call does. *)
Theorem cases_own_handler call h x v args opts f :
  tagged h x v args →
  get h opts v = VRef f →
  is_callable h f = true →
  cases h x opts = Some (Call f opts args)
  ∧ run_cases call h x opts = Some (call h f opts args).
Proof.
  intros Hx Hv Hf.
  assert (cases h x opts = Some (Call f opts args)) as Hc.
  { rewrite (cases_tagged _ _ _ _ _ Hx), Hv. simpl. by rewrite Hf. }
  split; [done|]. unfold run_cases. by rewrite Hc.
Qed.

Lemma cases_own_handler_witness :
  let h := scene_heap full_scene in
  let x := scene_value full_scene in
  let opts := scene_opts full_scene in
  tagged h x "Just" [VNum 5]
  ∧ get h opts "Just" = VRef fn_a
  ∧ is_callable h fn_a = true
  ∧ cases h x opts = Some (Call fn_a opts [VNum 5])
  ∧ run_cases collect h x opts = Some (h, Return (VArr [VNum 5])).
Proof.
  intros h x opts.
  assert (tagged h x "Just" [VNum 5]) as H1.
  { apply (value_of_tagged _ (scene_def full_scene)). evaluate. }
  assert (get h opts "Just" = VRef fn_a) as H2 by evaluate.
  assert (is_callable h fn_a = true) as H3 by evaluate.
  split; [exact H1|]. split; [exact H2|]. split; [exact H3|].
  exact (cases_own_handler collect h x "Just" [VNum 5] opts fn_a H1 H2 H3).
Defined.






(** C9.  A falsy own entry under the tag counts for nothing: [cases]
    goes on to the fallback (called with no argument when it is a
    function) and throws the missing-case error for the tag when that
    is falsy too; and when nothing is inherited under the tag, the
    outcome is that of the same map with the entry deleted. *)
Theorem cases_falsy_entry h x v args opts o fv :
  tagged h x v args →
  h !! opts = Some o → own o !! v = Some fv → truthy fv = false →
  (∀ f, get h opts "_" = VRef f → is_callable h f = true →
        cases h x opts = Some (Call f opts []))
  ∧ (truthy (get h opts "_") = false →
     cases h x opts = Some (Throw (missing_case v)))
  ∧ (x ≠ opts → get (delete_prop h opts v) opts v = VUndefined →
     cases h x opts = cases (delete_prop h opts v) x opts).
Proof.
  intros Hx Ho Hv Hfv.
  assert (get h opts v = fv) as Hg by eauto using get_own.
  rewrite (cases_tagged _ _ _ _ _ Hx), Hg, Hfv.
  split; [|split].
  - intros f -> Hf. simpl. by rewrite Hf.
  - by intros ->.
  - intros Hne Habs.
    rewrite (cases_tagged _ _ v args) by (apply tagged_delete; done).
    rewrite Habs. simpl. rewrite invoke_delete.
    destruct (decide (v = "_")) as [->|Hk].
    + rewrite Habs, Hg, Hfv. done.
    + by rewrite get_delete_ne.
Qed.

Lemma cases_falsy_entry_witness :
  let h := scene_heap falsy_scene in
  let x := scene_value falsy_scene in
  let opts := scene_opts falsy_scene in
  let o := Object {[ "Just" := VNum 0; "_" := VRef fn_b ]} (Some objproto) None in
  tagged h x "Just" [VNum 5]
  ∧ h !! opts = Some o
  ∧ own o !! "Just" = Some (VNum 0)
  ∧ truthy (VNum 0) = false
  ∧ cases h x opts = Some (Call fn_b opts [])
  ∧ cases h x opts = cases (delete_prop h opts "Just") x opts.
Proof.
  intros h x opts o.
  assert (tagged h x "Just" [VNum 5]) as H1.
  { apply (value_of_tagged _ (scene_def falsy_scene)). evaluate. }
  assert (h !! opts = Some o) as H2 by evaluate.
  assert (own o !! "Just" = Some (VNum 0)) as H3 by evaluate.
  assert (truthy (VNum 0) = false) as H4 by reflexivity.
  destruct (cases_falsy_entry h x "Just" [VNum 5] opts o (VNum 0) H1 H2 H3 H4)
    as (Hfb & _ & Hdel).
  split; [exact H1|]. split; [exact H2|]. split; [exact H3|]. split; [exact H4|].
  split.
  - apply Hfb; evaluate.
  - apply Hdel; [vm_compute; lia|evaluate].
Defined.



(** ** Constructors *)



(** C7.  A call of the constructor bound under [v] succeeds for every
    argument list; it returns a newly allocated instance of the
    definition with tag [v] and payload [args].  A second call with the
    same arguments returns another object, and the two answer every
    property read and every [cases] alike. *)
Theorem constructor_total_fresh h D v args :
  heap_wf h → definition_at h D → bound h D v →
  ∃ h1 x1 h2 x2,
    call_variant h (SumType D) v args = Some (h1, x1)
    ∧ h !! x1 = None
    ∧ value_of h1 D x1 v args
    ∧ get h1 x1 "_name" = VStr v ∧ get h1 x1 "_args" = VArr args
    ∧ call_variant h1 (SumType D) v args = Some (h2, x2)
    ∧ x1 ≠ x2
    ∧ value_of h2 D x1 v args ∧ value_of h2 D x2 v args
    ∧ (∀ k, get h2 x1 k = get h2 x2 k)
    ∧ (∀ opts, cases h2 x1 opts = cases h2 x2 opts).
Proof.
  intros Hwf HD Hb.
  set (h1 := h ++ [instance_cell D v args]).
  assert (heap_wf h1) as Hwf1.
  { apply app_wf; [done|]. intros p [= <-].
    destruct HD as (Hvp & _). by eapply lookup_lt_Some. }
  assert (value_of h1 D (length h) v args) as Hx1.
  { unfold value_of, h1. by rewrite list_lookup_middle. }
  set (h2 := h1 ++ [instance_cell D v args]).
  assert (heap_wf h2) as Hwf2.
  { apply app_wf; [done|]. intros p [= <-].
    destruct HD as (Hvp & _). unfold h1. rewrite length_app.
    apply lookup_lt_Some in Hvp. lia. }
  assert (value_of h2 D (length h1) v args) as Hx2.
  { unfold value_of, h2. by rewrite list_lookup_middle. }
  exists h1, (length h), h2, (length h1).
  split; [by apply call_variant_eq|].
  split; [by apply lookup_ge_None|].
  split; [done|].
  split; [exact (tagged_name _ _ _ _ (value_of_tagged _ _ _ _ _ Hx1))|].
  split; [exact (tagged_args _ _ _ _ (value_of_tagged _ _ _ _ _ Hx1))|].
  split; [apply call_variant_eq; [by apply definition_at_app|by apply bound_app]|].
  split; [unfold h1; rewrite length_app; simpl; lia|].
  split; [by apply value_of_app|]. split; [done|].
  apply (same_shape_same_behaviour h2 D _ _ v args);
    [done|by apply value_of_app|done].
Qed.

Lemma constructor_total_fresh_witness :
  let h := maybe_def.1 in
  let D := maybe_def.2 in
  heap_wf h ∧ definition_at h D ∧ bound h D "Just"
  ∧ ∃ h1 x1 h2 x2,
      call_variant h (SumType D) "Just" [VNum 3; VNull] = Some (h1, x1)
      ∧ h !! x1 = None
      ∧ value_of h1 D x1 "Just" [VNum 3; VNull]
      ∧ get h1 x1 "_name" = VStr "Just"
      ∧ get h1 x1 "_args" = VArr [VNum 3; VNull]
      ∧ call_variant h1 (SumType D) "Just" [VNum 3; VNull] = Some (h2, x2)
      ∧ x1 ≠ x2
      ∧ value_of h2 D x1 "Just" [VNum 3; VNull]
      ∧ value_of h2 D x2 "Just" [VNum 3; VNull]
      ∧ (∀ k, get h2 x1 k = get h2 x2 k)
      ∧ (∀ opts, cases h2 x1 opts = cases h2 x2 opts).
Proof.
  intros h D.
  assert (heap_wf h) as H1 by (apply heap_wfb_spec; evaluate).
  assert (definition_at h D) as H2 by definition_at_by_evaluation.
  assert (bound h D "Just") as H3 by (eexists; split; evaluate).
  split; [exact H1|]. split; [exact H2|]. split; [exact H3|].
  exact (constructor_total_fresh h D "Just" [VNum 3; VNull] H1 H2 H3).
Defined.



(** ** The shared prototype *)

(** C5.  For two definitions with different surfaces (as any two calls
    of the factory give), a property written on the surface of [A]
    leaves every instance of [B] as it was: the instance itself, every
    property read on it and on [B]'s surface, and every dispatch on a
    handler map that does not inherit from [A]'s surface. *)
Theorem extension_isolation h A B x v args n b :
  heap_wf h → definition_at h A → definition_at h B →
  surface A ≠ surface B →
  value_of h B x v args →
  value_of (attach h A n b) B x v args
  ∧ (∀ k, get (attach h A n b) x k = get h x k)
  ∧ (∀ k, get (attach h A n b) (surface B) k = get h (surface B) k)
  ∧ (∀ opts, ¬ on_chain h opts (surface A) →
             cases (attach h A n b) x opts = cases h x opts).
Proof.
  intros Hwf HA HB Hne Hx. unfold attach.
  destruct (surface_apart _ _ _ _ _ _ Hwf HA HB Hx) as (Hax & Hav & Ha0).
  assert (¬ on_chain h x (surface A)) as Hoff.
  { intros Hc. destruct (value_chain _ _ _ _ _ _ Hwf HB Hx Hc)
      as [?|[?|[?|?]]]; done. }
  assert (value_of (set h (surface A) n b) B x v args) as Hx'.
  { unfold value_of. by rewrite set_lookup_ne. }
  split; [done|]. split; [|split].
  - intros k. by apply get_set_off.
  - intros k. apply get_set_off. intros Hc.
    pose proof HB as (_ & (ob & Hb & Hpb & _) & _).
    inversion Hc as [|? o p ? Ho Hp Hc1]; subst; [done|].
    rewrite Hb in Ho. injection Ho as <-. rewrite Hpb in Hp. injection Hp as <-.
    inversion Hc1 as [|? o p ? Ho Hp Hc2]; subst; [done|].
    by rewrite (objproto_top _ _ Hwf Ho) in Hp.
  - intros opts Hopts.
    rewrite (cases_tagged _ _ v args) by eauto using value_of_tagged.
    rewrite (cases_tagged h _ v args) by eauto using value_of_tagged.
    by rewrite !invoke_set, !get_set_off.
Qed.

Lemma extension_isolation_witness :
  let h := two_trees.1.1.1 in
  let A := two_trees.1.1.2 in
  let B := two_trees.1.2 in
  let x := two_trees.2 in
  heap_wf h ∧ definition_at h A ∧ definition_at h B
  ∧ surface A ≠ surface B
  ∧ value_of h B x "Leaf" [VNum 1]
  ∧ value_of (attach h A "mapLeaf" (VRef fn_a)) B x "Leaf" [VNum 1]
  ∧ (∀ k, get (attach h A "mapLeaf" (VRef fn_a)) x k = get h x k)
  ∧ (∀ k, get (attach h A "mapLeaf" (VRef fn_a)) (surface B) k
          = get h (surface B) k)
  ∧ (∀ opts, ¬ on_chain h opts (surface A) →
             cases (attach h A "mapLeaf" (VRef fn_a)) x opts = cases h x opts).
Proof.
  intros h A B x.
  assert (heap_wf h) as H1 by (apply heap_wfb_spec; evaluate).
  assert (definition_at h A) as H2 by definition_at_by_evaluation.
  assert (definition_at h B) as H3 by definition_at_by_evaluation.
  assert (surface A ≠ surface B) as H4 by (vm_compute; lia).
  assert (value_of h B x "Leaf" [VNum 1]) as H5 by evaluate.
  split; [exact H1|]. split; [exact H2|]. split; [exact H3|].
  split; [exact H4|]. split; [exact H5|].
  exact (extension_isolation h A B x "Leaf" [VNum 1] "mapLeaf" (VRef fn_a)
           H1 H2 H3 H4 H5).
Defined.




(** ** The scenarios of the specification *)

(** [T.Just(3).cases({Just: v => v + 1, Nothing: () => -1})] is [4]. *)
Example scenario_own_handler :
  let s := scene ["Nothing"; "Just"] "Just" [VNum 3]
                 {[ "Just" := VRef fn_a; "Nothing" := VRef fn_b ]} in
  run_cases arith (scene_heap s) (scene_value s) (scene_opts s)
  = Some (scene_heap s, Return (VNum 4)).
Proof. evaluate. Qed.

(** [T.Nothing().cases({Just: v => v + 1, _: () => -1})] is [-1]. *)
Example scenario_fallback :
  let s := scene ["Nothing"; "Just"] "Nothing" []
                 {[ "Just" := VRef fn_a; "_" := VRef fn_b ]} in
  run_cases arith (scene_heap s) (scene_value s) (scene_opts s)
  = Some (scene_heap s, Return (VNum (-1))).
Proof. evaluate. Qed.

(** [T.Just(5).cases({Nothing: () => -1})] throws, naming [Just]. *)
Example scenario_missing :
  let s := scene ["Nothing"; "Just"] "Just" [VNum 5]
                 {[ "Nothing" := VRef fn_b ]} in
  run_cases arith (scene_heap s) (scene_value s) (scene_opts s)
  = Some (scene_heap s, Raise (missing_case "Just")).
Proof. evaluate. Qed.

(** A value whose tag is a member of [Object.prototype]: an object
    literal without that key still yields the inherited function. *)
Example scenario_inherited_entry :
  let s := scene ["toString"] "toString" [VNum 1] ∅ in
  cases (scene_heap s) (scene_value s) (scene_opts s)
  = Some (Call builtin_toString (scene_opts s) [VNum 1]).
Proof. evaluate. Qed.

(** * Further properties of the factory, the instances and the surface *)

(** ** Heaps that grow *)

Lemma extends_refl h : extends h h.
Proof. by split. Qed.

Lemma extends_trans h1 h2 h3 : extends h1 h2 → extends h2 h3 → extends h1 h3.
Proof.
  intros [L1 H1] [L2 H2]. split; [lia|].
  intros l Hl. rewrite H2 by lia. by apply H1.
Qed.

Lemma extends_app h ext : extends h (h ++ ext).
Proof.
  split; [rewrite length_app; lia|]. intros l Hl. by apply lookup_app_l.
Qed.

Lemma extends_set h h' l k v :
  extends h h' → length h ≤ l → extends h (set h' l k v).
Proof.
  intros [L H] Hl. split; [by rewrite length_set|].
  intros l' Hl'. rewrite set_lookup_ne by lia. by apply H.
Qed.

Lemma extends_prefix h h' : extends h h' → h' = h ++ drop (length h) h'.
Proof.
  intros [L H]. apply list_eq. intros i.
  destruct (decide (i < length h)) as [Hi|Hi].
  - rewrite lookup_app_l by done. by apply H.
  - rewrite lookup_app_r by lia. rewrite lookup_drop. f_equal. lia.
Qed.

Lemma extends_lookup h h' l o : extends h h' → h !! l = Some o → h' !! l = Some o.
Proof. intros [_ H] Hl. rewrite H; [done|]. by eapply lookup_lt_Some. Qed.



Lemma definition_at_extends h h' D :
  extends h h' → definition_at h D → definition_at h' D.
Proof.
  intros He HD. rewrite (extends_prefix _ _ He). by apply definition_at_app.
Qed.

Lemma value_of_extends h h' D x v args :
  extends h h' → value_of h D x v args → value_of h' D x v args.
Proof. intros He Hx. by eapply extends_lookup. Qed.

Lemma bound_extends h h' D v :
  heap_wf h → extends h h' → bound h D v → bound h' D v.
Proof.
  intros Hwf He Hb. rewrite (extends_prefix _ _ He). by apply bound_app.
Qed.

(** ** The factory *)

(** The cells of the returned function and of its surface. *)
Lemma define_cells h names h' D :
  heap_wf h → define h names = (h', D) →
  SumType D = length h ∧ surface D = length h + 1
  ∧ h' !! surface D
    = Some (Object {[ "constructor" := VRef (SumType D) ]} (Some objproto) None)
  ∧ ∃ oT, h' !! SumType D = Some oT
          ∧ proto oT = Some funproto ∧ callable oT = Some CSumType
          ∧ (∀ k, k ∉ names →
               own oT !! k
               = ({[ "prototype" := VRef (surface D) ]} : gmap string value) !! k).
Proof.
  intros Hwf Hdef. rewrite define_unfold in Hdef. cbn zeta in Hdef.
  set (b := length h) in *.
  assert (define_prefix h !! b = Some
            (Object {[ "prototype" := VRef (b + 1) ]} (Some funproto) (Some CSumType)))
    as HT.
  { replace b with (length h + 0) at 1 by (unfold b; lia).
    rewrite define_prefix_new, define_prefix_drop. done. }
  destruct (bind_fold b (b + 2) names _ [] _ HT)
    as (h1 & oT' & Hfold & _ & Hframe & _ & HT' & Hp & Hc & Hown & _).
  rewrite Hfold in Hdef. injection Hdef as <- <-. cbn [SumType surface].
  split; [done|]. split; [done|]. split.
  - rewrite Hframe by (rewrite ?define_prefix_length; fold b; lia).
    unfold b. rewrite define_prefix_new, define_prefix_drop. done.
  - exists oT'. split; [done|]. split; [by rewrite Hp|]. split; [by rewrite Hc|].
    intros k Hk. by rewrite Hown.
Qed.

Lemma define_factory_at h names h' D :
  heap_wf h → define h names = (h', D) → factory_at h' D.
Proof.
  intros Hwf Hdef.
  destruct (define_spec h names Hwf) as (h1 & Hdef1 & _ & _ & _ & HD & _).
  rewrite Hdef in Hdef1. injection Hdef1 as -> ->.
  destruct (define_cells _ _ _ _ Hwf Hdef) as (HS & Hsf & _ & oT & HT & Hp & Hc & _).
  split; [done|]. split.
  - destruct Hwf as [Hlen _]. cbn [surface]. unfold funproto. lia.
  - exists oT. by rewrite Hc, Hp.
Qed.



(** X3.  What the property [prototype] of the returned function holds:
    the surface, unless [prototype] is itself one of the names, in which
    case line 18 has replaced it by the constructor of that name while
    the instances go on inheriting from the surface. *)
Theorem define_prototype_property h names h' D :
  heap_wf h → define h names = (h', D) →
  ("prototype" ∉ names → get h' (SumType D) "prototype" = VRef (surface D))
  ∧ ("prototype" ∈ names →
     ∃ c, get h' (SumType D) "prototype" = VRef c
          ∧ c ≠ surface D
          ∧ h' !! c = Some (ctor_cell "prototype" (Variant D)))
  ∧ definition_at h' D.
Proof.
  intros Hwf Hdef.
  destruct (define_cells _ _ _ _ Hwf Hdef) as (_ & _ & Hsurf & oT & HT & _ & _ & Hown).
  destruct (define_spec h names Hwf) as (h1 & Hdef1 & _ & _ & _ & HD & _).
  rewrite Hdef in Hdef1. injection Hdef1 as <- HDeq. rewrite <- HDeq in HD.
  split; [|split; [|done]].
  - intros Hnot. eapply get_own; [exact HT|].
    rewrite Hown by done. by rewrite lookup_singleton_eq.
  - intros Hin. destruct (define_bound _ _ _ _ _ Hwf Hdef Hin) as (c & Hg & Hc).
    exists c. split; [done|]. split; [|done].
    intros ->. rewrite Hsurf in Hc. discriminate Hc.
Qed.

(** ** Reads on an instance *)

Lemma instance_get h D x v args k :
  heap_wf h → definition_at h D → value_of h D x v args →
  get h x k =
    if decide (k = "_args") then VArr args
    else if decide (k = "_name") then VStr v
    else if decide (k = "cases") then VRef (cases_fn D)
    else get h (surface D) k.
Proof.
  intros Hwf (Hvp & _) Hx.
  rewrite (get_unfold _ _ _ _ Hwf Hx). simpl.
  destruct (decide (k = "_args")) as [->|H1]; [by rewrite lookup_insert_eq|].
  rewrite lookup_insert_ne by done.
  destruct (decide (k = "_name")) as [->|H2]; [by rewrite lookup_insert_eq|].
  rewrite lookup_insert_ne, lookup_empty by done.
  rewrite (get_unfold _ _ _ _ Hwf Hvp). simpl.
  destruct (decide (k = "cases")) as [->|H3]; [by rewrite lookup_singleton_eq|].
  by rewrite lookup_singleton_ne.
Qed.


(** A surface read after a write on that surface. *)
Lemma surface_get_attach h D n b k :
  heap_wf h → definition_at h D →
  get (attach h D n b) (surface D) k
  = if decide (k = n) then b else get h (surface D) k.
Proof.
  intros Hwf (_ & (os & Hs & _) & _). unfold attach.
  destruct (decide (k = n)) as [->|Hne]; [|by apply get_set_ne].
  eapply get_own; [by apply set_lookup|]. simpl. by rewrite lookup_insert_eq.
Qed.




(** ** Constructors and the surface *)

Lemma on_chain_inv h l a :
  on_chain h l a →
  a = l ∨ ∃ o p, h !! l = Some o ∧ proto o = Some p ∧ on_chain h p a.
Proof.
  intros Hc. destruct Hc as [l|l o p a Ho Hp Hc]; [by left|].
  right. by exists o, p.
Qed.

(** The chain of the returned function avoids every surface. *)
Lemma factory_chain_off_surface h A D :
  heap_wf h → factory_at h A → factory_at h D →
  ¬ on_chain h (SumType D) (surface A).
Proof.
  intros Hwf (HA & HAlt & _) (_ & _ & oT & HT & HTc & HTp) Hc.
  pose proof HA as (_ & (oa & Ha & Hpa & Hca) & _).
  pose proof Hwf as [_ Hw].
  apply on_chain_inv in Hc as [Heq|(o & p & Ho & Hp & Hc)].
  { rewrite Heq, HT in Ha. injection Ha as <-. congruence. }
  rewrite HT in Ho. injection Ho as <-. rewrite HTp in Hp. injection Hp as <-.
  apply on_chain_inv in Hc as [Heq|(o & p & Ho & Hp & Hc)]; [lia|].
  pose proof (Hw _ _ _ Ho Hp) as Hlt.
  assert (p = objproto) as -> by (unfold funproto, objproto in *; lia).
  apply on_chain_inv in Hc as [Heq|(o' & p' & Ho' & Hp' & Hc)].
  { pose proof (Hw _ _ _ Ha Hpa). unfold objproto in *. lia. }
  by rewrite (objproto_top _ _ Hwf Ho') in Hp'.
Qed.

Lemma bound_attach h A D n b v :
  heap_wf h → factory_at h A → factory_at h D → bound h D v →
  bound (attach h A n b) D v.
Proof.
  intros Hwf HA HD (c & Hg & Hc). exists c. unfold attach. split.
  - rewrite get_set_off; [done|]. by apply factory_chain_off_surface.
  - rewrite set_lookup_ne; [done|]. intros Heq.
    destruct HA as ((_ & (oa & Ha & _ & Hca) & _) & _).
    rewrite Heq, Hc in Ha. injection Ha as <-. discriminate Hca.
Qed.


(** Every call of a constructor closure appends one object. *)
Lemma new_Variant_app h V name args :
  ∃ cell, new_Variant h V name args = (h ++ [cell], length h).
Proof.
  unfold new_Variant, alloc, set. eexists.
  replace (length h) with (length h + 0) at 1 2 by lia.
  rewrite alter_app_r. cbn [alter list_alter]. rewrite alter_app_r.
  cbn [alter list_alter]. reflexivity.
Qed.

Lemma call_variant_app h T w ws h2 y :
  call_variant h T w ws = Some (h2, y) →
  y = length h ∧ ∃ cell, h2 = h ++ [cell].
Proof.
  unfold call_variant, construct. intros Hcall.
  destruct (get h T w) as [| | | | | | |c]; try done.
  destruct (h !! c) as [o|]; [|done].
  destruct (callable o) as [[| | |name V|]|]; try done.
  destruct (new_Variant_app h V name ws) as (cell & Heq).
  rewrite Heq in Hcall. injection Hcall as <- <-. eauto.
Qed.

(** X8.  No operation of the library changes an instance once it is
    made: a call of the factory, a call of any constructor (which
    returns another object) and a write on any surface leave its tag,
    its payload and its prototype as they are. *)
Theorem instances_immutable h B x v args :
  value_of h B x v args →
  (∀ names h' D, heap_wf h → define h names = (h', D) →
                 value_of h' B x v args)
  ∧ (∀ T w ws h2 y, call_variant h T w ws = Some (h2, y) →
                    value_of h2 B x v args ∧ y ≠ x)
  ∧ (∀ A n b, heap_wf h → definition_at h A → definition_at h B →
              value_of (attach h A n b) B x v args).
Proof.
  intros Hx. split; [|split].
  - intros names h' D Hwf Hdef.
    destruct (define_spec h names Hwf) as (h1 & Hdef1 & _ & _ & Hold & _).
    rewrite Hdef in Hdef1. injection Hdef1 as -> _.
    unfold value_of. rewrite Hold; [done|]. by eapply lookup_lt_Some.
  - intros T w ws h2 y Hcall.
    destruct (call_variant_app _ _ _ _ _ _ Hcall) as (-> & cell & ->).
    split; [by apply value_of_app|].
    apply lookup_lt_Some in Hx. lia.
  - intros A n b Hwf HA HB. by apply (value_of_attach h A B).
Qed.


(** * The program of the test file *)

(** The run of the test: the result stands for
    [Inner('root', Leaf(0), Leaf(8))], as line 55 expects. *)
Example test_run_result :
  ∃ h y, test_run = Ok h (VRef y)
         ∧ rep h (res_def test_scene)
               (TInner (VStr "root") (TLeaf (VNum 0)) (TLeaf (VNum 8))) y.
Proof.
  assert (∃ h y, test_run = Ok h (VRef y)) as (h & y & Hrun).
  { vm_compute. eauto. }
  exists h, y. split; [done|].
  vm_compute in Hrun. injection Hrun as <- <-.
  do 2 eexists; repeat split; evaluate.
Qed.

Lemma app_wf_cells h ext :
  heap_wf h →
  (∀ i o p, ext !! i = Some o → proto o = Some p → p < length h + i) →
  heap_wf (h ++ ext).
Proof.
  intros [Hlen Hw] Hext. split; [rewrite length_app; lia|].
  intros l o p Hl Hp. destruct (decide (l < length h)) as [Hlt|Hge].
  - rewrite lookup_app_l in Hl by done. eauto.
  - rewrite lookup_app_r in Hl by lia.
    pose proof (Hext _ _ _ Hl Hp). lia.
Qed.

Lemma handler_cells_wf h : heap_wf h → heap_wf (h ++ handler_cells (length h)).
Proof.
  intros Hwf. apply app_wf_cells; [done|]. destruct Hwf as [Hlen _].
  intros [|[|[|i]]] o p Hi Hp; simpl in Hi; try done;
    injection Hi as <-; injection Hp as <-; unfold objproto, funproto; lia.
Qed.

Lemma bind_ok {A B : Type} (m : M A) (k : A → M B) h h' a :
  m h = Ok h' a → bind m k h = k a h'.
Proof. intros Hm. unfold bind. by rewrite Hm. Qed.

Lemma code_of_cell h l o c :
  h !! l = Some o → callable o = Some c → code_of (VRef l) h = Ok h c.
Proof. intros Hl Hc. unfold code_of. by rewrite Hl, Hc. Qed.

Lemma call_constructor_eq h D c v args :
  definition_at h D → h !! c = Some (ctor_cell v (Variant D)) →
  call_constructor (VRef c) args h
  = Ok (h ++ [instance_cell D v args]) (VRef (length h)).
Proof.
  intros HD Hc. unfold call_constructor.
  rewrite (bind_ok _ _ _ _ _ (code_of_cell _ _ _ _ Hc eq_refl)).
  by rewrite new_Variant_eq.
Qed.

Lemma alter_app_here {A : Type} (f : A → A) (l ext : list A) :
  alter f (length l) (l ++ ext) = l ++ alter f 0 ext.
Proof.
  replace (length l) with (length l + 0) at 1 by lia. apply alter_app_r.
Qed.

(** One call of [mapLeaf]: the handler map and its two functions are
    allocated, then [cases] runs. *)
Lemma mapLeaf_step fn T fuel this h :
  mapLeaf fn T (S fuel) this h
  = bind (call_cases (get h this "cases") this (length h))
         (handlers fn T (mapLeaf fn T fuel) (length h + 1) (length h + 2))
         (h ++ handler_cells (length h)).
Proof.
  cbn [mapLeaf]. unfold bind at 1 2 3 4 5 6, read, fresh, write, set.
  rewrite !length_alter, !length_app. cbn [length].
  rewrite <- !app_assoc. cbn [app].
  rewrite alter_app_here. cbn [alter list_alter].
  rewrite <- app_assoc. cbn [app].
  rewrite alter_app_here. cbn [alter list_alter].
  replace (length h + 1 + 1) with (length h + 2) by lia.
  reflexivity.
Qed.

Lemma rep_extends h h' D t :
  extends h h' → ∀ x, rep h D t x → rep h' D t x.
Proof.
  intros He. induction t as [a|n l IHl r IHr]; intros x; simpl.
  - by apply value_of_extends.
  - intros (xl & xr & Hx & Hl & Hr). exists xl, xr.
    split; [by eapply value_of_extends|]. split; [by apply IHl|by apply IHr].
Qed.

Lemma rep_instance h D t x : rep h D t x → ∃ v args, value_of h D x v args.
Proof. destruct t; simpl; [eauto|]. intros (xl & xr & Hx & _). eauto. Qed.

Lemma tree_program_extends h h' D :
  heap_wf h' → extends h h' → tree_program_at h D → tree_program_at h' D.
Proof.
  intros Hwf' He (Hwf & HD & HbL & HbI & os & m & om & Hs & Hm & Hom & Hc).
  split; [done|]. split; [by eapply definition_at_extends|].
  split; [by eapply bound_extends|]. split; [by eapply bound_extends|].
  exists os, m, om. split; [by eapply extends_lookup|]. split; [done|].
  split; [by eapply extends_lookup|done].
Qed.

(** On an instance, [x.mapLeaf(fn)] runs the function of line 46. *)
Lemma call_mapLeaf_instance h D x v args body :
  tree_program_at h D → value_of h D x v args →
  call_mapLeaf body (VRef x) h = body x h.
Proof.
  intros (Hwf & HD & _ & _ & os & m & om & Hs & Hm & Hom & Hc) Hx.
  unfold call_mapLeaf, member.
  assert (read x "mapLeaf" h = Ok h (VRef m)) as Hr.
  { unfold read. rewrite (instance_get _ _ _ _ _ _ Hwf HD Hx).
    repeat case_decide; try done. by rewrite (get_own _ _ _ _ _ Hs Hm). }
  rewrite (bind_ok _ _ _ _ _ Hr).
  rewrite (bind_ok _ _ _ _ _ (code_of_cell _ _ _ _ Hom Hc)).
  by rewrite decide_True.
Qed.

(** [this.cases(opts)] on an instance, in the heap that holds the
    handler map. *)
Lemma call_cases_instance h D x v args :
  tree_program_at h D → value_of h D x v args →
  let h5 := h ++ handler_cells (length h) in
  tree_program_at h5 D
  ∧ call_cases (get h x "cases") x (length h) h5
    = Ok h5 (if truthy (get h5 (length h) v)
             then invoke h5 (get h5 (length h) v) (length h) args
             else if truthy (get h5 (length h) "_")
                  then invoke h5 (get h5 (length h) "_") (length h) []
                  else Throw (missing_case v)).
Proof.
  intros HP Hx h5. pose proof HP as (Hwf & HD & _).
  assert (tree_program_at h5 D) as HP5.
  { eapply tree_program_extends; [by apply handler_cells_wf|apply extends_app|done]. }
  split; [done|].
  rewrite (instance_get _ _ _ _ _ _ Hwf HD Hx).
  repeat case_decide; try done.
  destruct HP5 as (_ & (_ & _ & (oc & Hoc & Hcc) & _) & _).
  unfold call_cases.
  rewrite (bind_ok _ _ _ _ _ (code_of_cell _ _ _ _ Hoc Hcc)).
  rewrite (cases_tagged _ _ v args); [done|].
  apply (value_of_tagged _ D). by apply value_of_app.
Qed.

Lemma handler_map_get h k :
  heap_wf h →
  get (h ++ handler_cells (length h)) (length h) k
  = if decide (k = "Inner") then VRef (length h + 2)
    else if decide (k = "Leaf") then VRef (length h + 1)
    else get h objproto k.
Proof.
  intros Hwf. pose proof (handler_cells_wf h Hwf) as Hwf5.
  erewrite get_unfold; [|done|by apply list_lookup_middle]. simpl.
  destruct (decide (k = "Inner")) as [->|H1]; [by rewrite lookup_insert_eq|].
  rewrite lookup_insert_ne by done.
  destruct (decide (k = "Leaf")) as [->|H2]; [by rewrite lookup_insert_eq|].
  rewrite lookup_insert_ne, lookup_empty by done.
  apply get_app; [done|]. destruct Hwf as [Hlen _]. unfold objproto. lia.
Qed.

Lemma handler_callable h :
  is_callable (h ++ handler_cells (length h)) (length h + 1) = true
  ∧ is_callable (h ++ handler_cells (length h)) (length h + 2) = true.
Proof.
  unfold is_callable.
  rewrite !lookup_app_r by lia.
  replace (length h + 1 - length h) with 1 by lia.
  replace (length h + 2 - length h) with 2 by lia. done.
Qed.

(** A leaf: one more instance, tagged [Leaf], with [fn] applied. *)
Lemma mapLeaf_leaf fn D h x args fuel :
  tree_program_at h D → value_of h D x "Leaf" args →
  mapLeaf fn (SumType D) (S fuel) x h
  = Ok ((h ++ handler_cells (length h))
          ++ [instance_cell D "Leaf" [fn (arg 0 args)]])
       (VRef (length h + 3)).
Proof.
  intros HP Hx. pose proof HP as (Hwf & _).
  destruct (call_cases_instance _ _ _ _ _ HP Hx) as (HP5 & Hcc).
  rewrite mapLeaf_step, (bind_ok _ _ _ _ _ Hcc).
  rewrite handler_map_get by done. rewrite decide_False, decide_True by done.
  simpl truthy. cbv iota. simpl invoke.
  rewrite (proj1 (handler_callable h)).
  unfold handlers. rewrite decide_True by done.
  destruct HP5 as (_ & HD5 & (c & Hg & Hc) & _).
  unfold read at 1. unfold bind at 1. rewrite Hg.
  rewrite (call_constructor_eq _ D c "Leaf") by done.
  do 2 f_equal. rewrite length_app. simpl. lia.
Qed.

(** An inner node: the two subtrees are mapped, left first, in the heap
    that holds the handler map, then the constructor is called. *)
Lemma mapLeaf_inner fn D h x args fuel :
  tree_program_at h D → value_of h D x "Inner" args →
  ∃ c, (h ++ handler_cells (length h)) !! c
       = Some (ctor_cell "Inner" (Variant D))
  ∧ mapLeaf fn (SumType D) (S fuel) x h
    = (l <~ call_mapLeaf (mapLeaf fn (SumType D) fuel) (arg 1 args) ;;
       r <~ call_mapLeaf (mapLeaf fn (SumType D) fuel) (arg 2 args) ;;
       call_constructor (VRef c) [arg 0 args; l; r])
        (h ++ handler_cells (length h)).
Proof.
  intros HP Hx. pose proof HP as (Hwf & _).
  destruct (call_cases_instance _ _ _ _ _ HP Hx) as (HP5 & Hcc).
  destruct HP5 as (_ & HD5 & _ & (c & Hg & Hc) & _).
  exists c. split; [done|].
  rewrite mapLeaf_step, (bind_ok _ _ _ _ _ Hcc).
  rewrite handler_map_get by done. rewrite decide_True by done.
  simpl truthy. cbv iota. simpl invoke.
  rewrite (proj2 (handler_callable h)).
  unfold handlers. rewrite decide_False by lia. rewrite decide_True by done.
  unfold read at 1. unfold bind at 1. rewrite Hg. done.
Qed.

Lemma mapLeaf_run fn D t :
  ∀ h x fuel,
    tree_program_at h D → rep h D t x → height t < fuel →
    ∃ h' y,
      mapLeaf fn (SumType D) fuel x h = Ok h' (VRef y)
      ∧ rep h' D (tmap fn t) y
      ∧ extends h h'
      ∧ length h' = length h + 4 * nodes t
      ∧ length h ≤ y
      ∧ tree_program_at h' D.
Proof.
  induction t as [a|n l IHl r IHr]; intros h x fuel HP Hx Hfuel;
    (destruct fuel as [|fuel]; [lia|]); simpl in Hx, Hfuel.
  - pose proof HP as (Hwf & HD & _).
    set (h5 := h ++ handler_cells (length h)).
    assert (heap_wf h5) as Hwf5 by (by apply handler_cells_wf).
    assert (length h5 = length h + 3) as Hlen5.
    { unfold h5. rewrite length_app. done. }
    set (h' := h5 ++ [instance_cell D "Leaf" [fn a]]).
    assert (extends h h') as He.
    { eapply extends_trans; apply extends_app. }
    assert (heap_wf h') as Hwf'.
    { apply app_wf; [done|]. intros p [= <-].
      destruct HD as (Hvp & _). apply lookup_lt_Some in Hvp. lia. }
    exists h', (length h + 3).
    split; [by apply (mapLeaf_leaf fn D h x [a])|].
    split; [simpl; unfold value_of, h'; apply list_lookup_middle; lia|].
    split; [done|].
    split; [unfold h'; rewrite length_app, Hlen5; simpl; lia|].
    split; [lia|]. by eapply tree_program_extends.
  - destruct Hx as (xl & xr & Hx & Hl & Hr).
    pose proof HP as (Hwf & HD & _).
    destruct (mapLeaf_inner fn D h x _ fuel HP Hx) as (c & Hc & ->).
    change (arg 0 [n; VRef xl; VRef xr]) with n.
    change (arg 1 [n; VRef xl; VRef xr]) with (VRef xl).
    change (arg 2 [n; VRef xl; VRef xr]) with (VRef xr).
    set (h5 := h ++ handler_cells (length h)) in *.
    assert (heap_wf h5) as Hwf5 by (by apply handler_cells_wf).
    assert (extends h h5) as He5 by apply extends_app.
    assert (length h5 = length h + 3) as Hlen5.
    { unfold h5. rewrite length_app. done. }
    assert (tree_program_at h5 D) as HP5 by (by eapply tree_program_extends).
    (* the left subtree *)
    pose proof (rep_extends _ _ _ _ He5 _ Hl) as Hl5.
    destruct (rep_instance _ _ _ _ Hl5) as (vl & al & Hxl).
    destruct (IHl h5 xl fuel HP5 Hl5 ltac:(lia))
      as (h6 & yl & Hrunl & Hrepl & He6 & Hlen6 & Hyl & HP6).
    rewrite (bind_ok _ _ h5 h6 (VRef yl));
      [|by rewrite (call_mapLeaf_instance _ _ _ _ _ _ HP5 Hxl)].
    (* the right subtree *)
    assert (extends h h6) as He06 by (by eapply extends_trans).
    pose proof (rep_extends _ _ _ _ He06 _ Hr) as Hr6.
    destruct (rep_instance _ _ _ _ Hr6) as (vr & ar & Hxr).
    destruct (IHr h6 xr fuel HP6 Hr6 ltac:(lia))
      as (h7 & yr & Hrunr & Hrepr & He7 & Hlen7 & Hyr & HP7).
    rewrite (bind_ok _ _ h6 h7 (VRef yr));
      [|by rewrite (call_mapLeaf_instance _ _ _ _ _ _ HP6 Hxr)].
    (* the node *)
    pose proof HP7 as (Hwf7 & HD7 & _).
    assert (extends h5 h7) as He57 by (by eapply extends_trans).
    rewrite (call_constructor_eq h7 D c "Inner");
      [|done|by eapply extends_lookup].
    set (h' := h7 ++ [instance_cell D "Inner" [n; VRef yl; VRef yr]]).
    assert (heap_wf h') as Hwf'.
    { apply app_wf; [done|]. intros p [= <-].
      destruct HD7 as (Hvp & _). by eapply lookup_lt_Some. }
    assert (extends h7 h') as He' by apply extends_app.
    exists h', (length h7).
    split; [done|]. split.
    { simpl. exists yl, yr. split; [by apply list_lookup_middle|].
      split; [|by eapply rep_extends].
      eapply rep_extends; [|exact Hrepl]. by eapply extends_trans. }
    split; [eapply extends_trans; [exact He06|by eapply extends_trans]|].
    split; [unfold h'; rewrite length_app; simpl; lia|].
    split; [destruct He06; destruct He7; lia|].
    eapply tree_program_extends; [done|exact He'|done].
Qed.

(** X10.  [x.mapLeaf(fn)] on an instance that stands for a tree [t]
    returns, for every recursion bound above the height of [t], a new
    instance that stands for [t] with [fn] applied to every leaf label:
    same shape, same names of the inner nodes. *)
Theorem mapLeaf_correct fn D t h x fuel :
  tree_program_at h D → rep h D t x → height t < fuel →
  ∃ h' y,
    call_mapLeaf (mapLeaf fn (SumType D) fuel) (VRef x) h = Ok h' (VRef y)
    ∧ rep h' D (tmap fn t) y.
Proof.
  intros HP Hx Hfuel.
  destruct (rep_instance _ _ _ _ Hx) as (v & args & Hv).
  destruct (mapLeaf_run fn D t h x fuel HP Hx Hfuel) as (h' & y & Hrun & Hrep & _).
  exists h', y. by rewrite (call_mapLeaf_instance _ _ _ _ _ _ HP Hv).
Qed.


(** X12.  On an instance of a variant other than [Leaf] and [Inner],
    [mapLeaf] throws the missing-case error for that variant, unless
    [Object.prototype] has something truthy under the tag or under [_]:
    its handler map has neither that entry nor a fallback. *)
Theorem mapLeaf_missing_case fn D h x v args fuel :
  tree_program_at h D → value_of h D x v args →
  v ≠ "Leaf" → v ≠ "Inner" →
  truthy (get h objproto v) = false → truthy (get h objproto "_") = false →
  call_mapLeaf (mapLeaf fn (SumType D) (S fuel)) (VRef x) h
  = Exn (missing_case v).
Proof.
  intros HP Hx HvL HvI Hv Hu. pose proof HP as (Hwf & _).
  rewrite (call_mapLeaf_instance _ _ _ _ _ _ HP Hx).
  destruct (call_cases_instance _ _ _ _ _ HP Hx) as (_ & Hcc).
  rewrite mapLeaf_step, (bind_ok _ _ _ _ _ Hcc).
  rewrite !handler_map_get by done.
  rewrite !decide_False by done. by rewrite Hv, Hu.
Qed.

Lemma factory_at_app h ext D : factory_at h D → factory_at (h ++ ext) D.
Proof.
  intros (HD & Hlt & oT & HT & Hc & Hp).
  split; [by apply definition_at_app|]. split; [done|].
  exists oT. split; [by apply lookup_app_l_Some|done].
Qed.

Lemma function_object_eq h c :
  function_object h c
  = (h ++ [Object {[ "prototype" := VRef (S (length h)) ]} (Some funproto) (Some c);
           Object {[ "constructor" := VRef (length h) ]} (Some objproto) None],
     length h, S (length h)).
Proof. reflexivity. Qed.

Lemma function_object_wf h c : heap_wf h → heap_wf (function_object h c).1.1.
Proof.
  intros Hwf. rewrite function_object_eq. simpl.
  apply app_wf_cells; [done|]. destruct Hwf as [Hlen _].
  intros [|[|i]] o p Hi Hp; simpl in Hi; try done;
    injection Hi as <-; injection Hp as <-; unfold objproto, funproto; lia.
Qed.

(** X13.  After the factory was called with [Leaf] and [Inner] among
    its names, and while [Tree.prototype] holds the surface, the
    assignment of line 46 ends normally; [mapLeaf] is then the function
    of line 46 on every instance, those made before the assignment
    included, and the trees in the heap are as before. *)
Theorem install_mapLeaf_spec h D :
  heap_wf h → factory_at h D →
  get h (SumType D) "prototype" = VRef (surface D) →
  bound h D "Leaf" → bound h D "Inner" →
  ∃ h2 m,
    install_mapLeaf (SumType D) h = Ok h2 tt
    ∧ tree_program_at h2 D
    ∧ (∀ x v args, value_of h D x v args →
         value_of h2 D x v args ∧ get h2 x "mapLeaf" = VRef m)
    ∧ (∀ t x, rep h D t x → rep h2 D t x).
Proof.
  intros Hwf HF Hproto HbL HbI. pose proof HF as (HD & _).
  pose proof HD as (_ & (os & Hs & _) & _).
  set (h1 := (function_object h (CHost mapLeaf_code)).1.1).
  assert (heap_wf h1) as Hwf1 by (by apply function_object_wf).
  assert (extends h h1) as He1.
  { unfold h1. rewrite function_object_eq. apply extends_app. }
  assert (factory_at h1 D) as HF1.
  { unfold h1. rewrite function_object_eq. by apply factory_at_app. }
  pose proof HF1 as (HD1 & _).
  set (h2 := attach h1 D "mapLeaf" (VRef (length h))).
  assert (heap_wf h2) as Hwf2 by (by apply set_wf).
  assert (definition_at h2 D) as HD2 by (by apply definition_at_attach).
  assert (∀ x v args, value_of h D x v args → value_of h2 D x v args) as Hval.
  { intros x v args Hx. apply (value_of_attach h1 D D); [done..|].
    by eapply value_of_extends. }
  assert (h2 !! length h
          = Some (Object {[ "prototype" := VRef (S (length h)) ]}
                         (Some funproto) (Some (CHost mapLeaf_code)))) as Hm.
  { unfold h2, attach. rewrite set_lookup_ne.
    - unfold h1. rewrite function_object_eq. simpl. by apply list_lookup_middle.
    - apply lookup_lt_Some in Hs. lia. }
  assert (get h2 (surface D) "mapLeaf" = VRef (length h)) as Hget.
  { unfold h2. rewrite surface_get_attach by done. by rewrite decide_True. }
  exists h2, (length h). split; [|split; [|split]].
  - unfold install_mapLeaf, read. unfold bind at 1. rewrite Hproto.
    unfold bind. rewrite function_object_eq. reflexivity.
  - split; [done|]. split; [done|].
    split; [apply bound_attach; [done..|]; by apply (bound_extends h h1)|].
    split; [apply bound_attach; [done..|]; by apply (bound_extends h h1)|].
    exists (set_own "mapLeaf" (VRef (length h)) os), (length h),
      (Object {[ "prototype" := VRef (S (length h)) ]}
              (Some funproto) (Some (CHost mapLeaf_code))).
    split; [apply set_lookup; by eapply extends_lookup|].
    split; [simpl; by rewrite lookup_insert_eq|]. split; [exact Hm|done].
  - intros x v args Hx. split; [by apply Hval|].
    rewrite (instance_get _ _ _ _ _ _ Hwf2 HD2 (Hval _ _ _ Hx)).
    by repeat case_decide.
  - intros t. induction t as [a|n l IHl r IHr]; intros x; simpl.
    + apply Hval.
    + intros (xl & xr & Hx & Hl & Hr). exists xl, xr.
      split; [by apply Hval|]. split; [by apply IHl|by apply IHr].
Qed.

(** * Properties written on the returned function *)


(** X14.  The instances inherit from the surface, not from the returned
    function: a property written on the function itself, or on one of
    its constructors, changes no read on any instance. *)
Theorem static_property_unseen h D x v args c w n b k :
  heap_wf h → factory_at h D → value_of h D x v args →
  h !! c = Some (ctor_cell w (Variant D)) →
  get (set h (SumType D) n b) x k = get h x k
  ∧ get (set h c n b) x k = get h x k.
Proof.
  intros Hwf (HD & _ & oT & HT & HTc & HTp) Hx Hc.
  pose proof HD as (Hvp & (os & Hs & _ & Hcs) & _).
  pose proof Hwf as [_ Hw].
  split; apply get_set_off; intros Hch;
    destruct (value_chain _ _ _ _ _ _ Hwf HD Hx Hch) as [Heq|[Heq|[Heq|Heq]]].
  - rewrite Heq, Hx in HT. injection HT as <-. discriminate HTc.
  - rewrite Heq, Hvp in HT. injection HT as <-. discriminate HTc.
  - rewrite Heq, Hs in HT. injection HT as <-. congruence.
  - pose proof (Hw _ _ _ HT HTp). unfold objproto, funproto in *. lia.
  - rewrite Heq, Hx in Hc. discriminate Hc.
  - rewrite Heq, Hvp in Hc. discriminate Hc.
  - rewrite Heq, Hs in Hc. injection Hc as ->. discriminate Hcs.
  - pose proof (Hw _ _ _ Hc eq_refl). unfold objproto, funproto in *. lia.
Qed.


(** * Further edges *)

(** X16.  Against an object literal, the entry [cases] finds under a
    key is the own property of the literal or else the member of
    [Object.prototype] of that name: a tag that names such a member
    (as [toString] does) selects it when the literal has no entry of
    its own, before any fallback. *)
Theorem cases_literal h x v args lit :
  heap_wf h → tagged h x v args →
  let entry k := match lit !! k with
                 | Some e => e
                 | None => get h objproto k
                 end in
  let h' := (object_literal h lit).1 in
  let opts := (object_literal h lit).2 in
  cases h' x opts
  = Some (if truthy (entry v) then invoke h' (entry v) opts args
          else if truthy (entry "_") then invoke h' (entry "_") opts []
          else Throw (missing_case v)).
Proof.
  intros Hwf Hx entry h' opts.
  unfold object_literal, alloc in h', opts. simpl in h', opts.
  assert (heap_wf h') as Hwf'.
  { apply app_wf; [done|]. intros p [= <-].
    destruct Hwf as [Hlen _]. unfold objproto. lia. }
  assert (tagged h' x v args) as Hx'.
  { destruct Hx as (o & Ho & Hn & Ha). exists o.
    split; [by apply lookup_app_l_Some|done]. }
  assert (∀ k, get h' opts k = entry k) as Hget.
  { intros k. unfold h', opts, entry.
    erewrite get_unfold; [|done|by apply list_lookup_middle]. simpl.
    destruct (lit !! k); [done|]. apply get_app; [done|].
    destruct Hwf as [Hlen _]. unfold objproto. lia. }
  rewrite (cases_tagged _ _ _ _ _ Hx'). by rewrite !Hget.
Qed.

(** X17.  A later call of the factory leaves an earlier definition at
    work: for a name both were given, each returned function holds its
    own constructor, the two constructors and the two prototypes of
    instances are different objects, and the earlier definition is in
    place as before. *)
Theorem definitions_independent h A names h' B v :
  heap_wf h → factory_at h A → bound h A v →
  define h names = (h', B) → v ∈ names →
  ∃ ca cb,
    get h' (SumType A) v = VRef ca
    ∧ get h' (SumType B) v = VRef cb
    ∧ ca ≠ cb
    ∧ h' !! ca = Some (ctor_cell v (Variant A))
    ∧ h' !! cb = Some (ctor_cell v (Variant B))
    ∧ Variant A ≠ Variant B
    ∧ variant_proto A ≠ variant_proto B
    ∧ factory_at h' A.
Proof.
  intros Hwf HFA HbA Hdef Hv.
  destruct (define_spec h names Hwf) as (h1 & Hdef1 & Hlen & _ & Hold & HDB & _).
  pose proof Hdef1 as Hdef2. rewrite Hdef in Hdef2. injection Hdef2 as <- HB.
  assert (extends h h') as He by (split; [lia|done]).
  pose proof (bound_extends _ _ _ _ Hwf He HbA) as (ca & Hga & Hca).
  pose proof (define_bound _ _ _ _ _ Hwf Hdef Hv) as (cb & Hgb & Hcb).
  pose proof HFA as (HDA & HltA & oT & HT & HTc & HTp).
  pose proof HDA as (HvpA & _ & _ & (oV & HV & _)).
  assert (Variant A < length h) as HVA by (by eapply lookup_lt_Some).
  assert (variant_proto A < length h) as HvA by (by eapply lookup_lt_Some).
  assert (Variant A ≠ Variant B) as HVne by (rewrite HB; simpl; lia).
  exists ca, cb. split; [done|]. split; [done|].
  split; [intros ->; rewrite Hca in Hcb; injection Hcb as Heq; done|].
  split; [done|]. split; [done|]. split; [done|].
  split; [rewrite HB; simpl; lia|].
  rewrite (extends_prefix _ _ He). by apply factory_at_app.
Qed.

Lemma height_tmap f t : height (tmap f t) = height t.
Proof. induction t as [a|n l IHl r IHr]; simpl; [done|]. by rewrite IHl, IHr. Qed.

Lemma tmap_tmap f g t : tmap g (tmap f t) = tmap (g ∘ f) t.
Proof. induction t as [a|n l IHl r IHr]; simpl; [done|]. by rewrite IHl, IHr. Qed.

(** X18.  [x.mapLeaf(f).mapLeaf(g)] stands for the tree of [x] with the
    composition of [f] then [g] applied to every leaf, and leaves the
    tree of [x] and the intermediate tree in place. *)
Theorem mapLeaf_compose f g D t h x fuel :
  tree_program_at h D → rep h D t x → height t < fuel →
  ∃ h1 y h2 z,
    call_mapLeaf (mapLeaf f (SumType D) fuel) (VRef x) h = Ok h1 (VRef y)
    ∧ call_mapLeaf (mapLeaf g (SumType D) fuel) (VRef y) h1 = Ok h2 (VRef z)
    ∧ rep h2 D (tmap (g ∘ f) t) z
    ∧ rep h2 D (tmap f t) y
    ∧ rep h2 D t x.
Proof.
  intros HP Hx Hfuel.
  destruct (rep_instance _ _ _ _ Hx) as (v & args & Hv).
  destruct (mapLeaf_run f D t h x fuel HP Hx Hfuel)
    as (h1 & y & Hrun1 & Hrep1 & He1 & _ & _ & HP1).
  destruct (rep_instance _ _ _ _ Hrep1) as (v1 & args1 & Hv1).
  destruct (mapLeaf_run g D (tmap f t) h1 y fuel HP1 Hrep1
              ltac:(by rewrite height_tmap))
    as (h2 & z & Hrun2 & Hrep2 & He2 & _).
  exists h1, y, h2, z.
  split; [by rewrite (call_mapLeaf_instance _ _ _ _ _ _ HP Hv)|].
  split; [by rewrite (call_mapLeaf_instance _ _ _ _ _ _ HP1 Hv1)|].
  split; [by rewrite <- tmap_tmap|]. split; [by eapply rep_extends|].
  eapply rep_extends; [|exact Hx]. by eapply extends_trans.
Qed.

(** X19.  An [Inner] made without its subtrees fails in [mapLeaf]:
    [l.mapLeaf] is read on [undefined] (or [null]) and a [TypeError]
    is thrown, whatever the rest of the payload. *)
Theorem mapLeaf_inner_missing_child fn D h x args fuel :
  tree_program_at h D → value_of h D x "Inner" args →
  arg 1 args = VUndefined ∨ arg 1 args = VNull →
  call_mapLeaf (mapLeaf fn (SumType D) (S fuel)) (VRef x) h
  = Exn (TypeError "cannot read a property").
Proof.
  intros HP Hx Harg.
  rewrite (call_mapLeaf_instance _ _ _ _ _ _ HP Hx).
  destruct (mapLeaf_inner fn D h x args fuel HP Hx) as (c & _ & ->).
  unfold bind at 1, call_mapLeaf, member.
  destruct Harg as [-> | ->]; reflexivity.
Qed.

(** X20.  On a [Leaf] of any payload, [mapLeaf] returns a [Leaf] of one
    field: [fn] of the first field ([fn(undefined)] when there is
    none); further fields are dropped. *)
Theorem mapLeaf_leaf_arity fn D h x args fuel :
  tree_program_at h D → value_of h D x "Leaf" args →
  ∃ h' y,
    call_mapLeaf (mapLeaf fn (SumType D) (S fuel)) (VRef x) h = Ok h' (VRef y)
    ∧ value_of h' D y "Leaf" [fn (arg 0 args)]
    ∧ extends h h'.
Proof.
  intros HP Hx.
  rewrite (call_mapLeaf_instance _ _ _ _ _ _ HP Hx).
  rewrite (mapLeaf_leaf fn D h x args fuel HP Hx).
  do 2 eexists. split; [reflexivity|]. split.
  - unfold value_of. apply list_lookup_middle. rewrite length_app. simpl. lia.
  - eapply extends_trans; apply extends_app.
Qed.

(** * Worked instances *)

Ltac factory_at_by_evaluation :=
  split; [definition_at_by_evaluation|];
  split; [vm_compute; lia|];
  eexists; split; [evaluate|split; reflexivity].

Ltac bound_by_evaluation := eexists; split; evaluate.

Ltac tree_program_by_evaluation :=
  split; [apply heap_wfb_spec; evaluate|];
  split; [definition_at_by_evaluation|];
  split; [bound_by_evaluation|];
  split; [bound_by_evaluation|];
  do 3 eexists; split; [evaluate|]; split; [evaluate|];
  split; [evaluate|reflexivity].

Lemma tree_def_eq : define host_heap ["Leaf"; "Inner"] = (tree_def.1, tree_def.2).
Proof. unfold tree_def. by destruct (define _ _). Qed.



Lemma define_prototype_property_witness :
  let d := define host_heap ["Leaf"; "prototype"] in
  heap_wf host_heap
  ∧ define host_heap ["Leaf"; "prototype"] = (d.1, d.2)
  ∧ "prototype" ∈ ["Leaf"; "prototype"]
  ∧ (∃ c, get d.1 (SumType d.2) "prototype" = VRef c
          ∧ c ≠ surface d.2
          ∧ d.1 !! c = Some (ctor_cell "prototype" (Variant d.2)))
  ∧ get tree_def.1 (SumType tree_def.2) "prototype" = VRef (surface tree_def.2).
Proof.
  intros d.
  assert (define host_heap ["Leaf"; "prototype"] = (d.1, d.2)) as Hd.
  { unfold d. by destruct (define _ _). }
  assert ("prototype" ∈ ["Leaf"; "prototype"]) as Hin by (right; left).
  assert ("prototype" ∉ ["Leaf"; "Inner"]) as Hnot.
  { intros H. repeat (apply elem_of_cons in H as [H|H]; [discriminate H|]).
    by apply elem_of_nil in H. }
  split; [exact heap_wf_host|]. split; [exact Hd|]. split; [exact Hin|].
  split.
  - exact (proj1 (proj2 (define_prototype_property host_heap
             ["Leaf"; "prototype"] d.1 d.2 heap_wf_host Hd)) Hin).
  - exact (proj1 (define_prototype_property host_heap ["Leaf"; "Inner"]
             tree_def.1 tree_def.2 heap_wf_host tree_def_eq) Hnot).
Defined.





Lemma instances_immutable_witness :
  let h := scene_heap tree_scene in
  let D := scene_def tree_scene in
  let x := scene_value tree_scene in
  value_of h D x "Leaf" []
  ∧ (∀ T w ws h2 y, call_variant h T w ws = Some (h2, y) →
                    value_of h2 D x "Leaf" [] ∧ y ≠ x).
Proof.
  intros h D x.
  assert (value_of h D x "Leaf" []) as H1 by evaluate.
  split; [exact H1|].
  exact (proj1 (proj2 (instances_immutable h D x "Leaf" [] H1))).
Defined.


Lemma mapLeaf_correct_witness :
  let h := res_heap test_scene in
  let D := res_def test_scene in
  let x := res_loc test_scene in
  tree_program_at h D ∧ rep h D test_tree x ∧ height test_tree < 5
  ∧ ∃ h' y,
      call_mapLeaf (mapLeaf double (SumType D) 5) (VRef x) h = Ok h' (VRef y)
      ∧ rep h' D (tmap double test_tree) y.
Proof.
  intros h D x.
  assert (tree_program_at h D) as H1 by tree_program_by_evaluation.
  assert (rep h D test_tree x) as H2 by (do 2 eexists; repeat split; evaluate).
  assert (height test_tree < 5) as H3 by (vm_compute; lia).
  split; [exact H1|]. split; [exact H2|]. split; [exact H3|].
  exact (mapLeaf_correct double D test_tree h x 5 H1 H2 H3).
Defined.


Lemma mapLeaf_missing_case_witness :
  let h := res_heap stump_scene in
  let D := res_def stump_scene in
  let x := res_loc stump_scene in
  tree_program_at h D ∧ value_of h D x "Stump" []
  ∧ "Stump" ≠ "Leaf" ∧ "Stump" ≠ "Inner"
  ∧ truthy (get h objproto "Stump") = false
  ∧ truthy (get h objproto "_") = false
  ∧ call_mapLeaf (mapLeaf double (SumType D) 1) (VRef x) h
    = Exn (missing_case "Stump").
Proof.
  intros h D x.
  assert (tree_program_at h D) as H1 by tree_program_by_evaluation.
  assert (value_of h D x "Stump" []) as H2 by evaluate.
  assert ("Stump" ≠ "Leaf") as H3 by discriminate.
  assert ("Stump" ≠ "Inner") as H4 by discriminate.
  assert (truthy (get h objproto "Stump") = false) as H5 by evaluate.
  assert (truthy (get h objproto "_") = false) as H6 by evaluate.
  split; [exact H1|]. split; [exact H2|]. split; [exact H3|]. split; [exact H4|].
  split; [exact H5|]. split; [exact H6|].
  exact (mapLeaf_missing_case double D h x "Stump" [] 0 H1 H2 H3 H4 H5 H6).
Defined.

Lemma install_mapLeaf_spec_witness :
  let h := tree_def.1 in
  let D := tree_def.2 in
  heap_wf h ∧ factory_at h D
  ∧ get h (SumType D) "prototype" = VRef (surface D)
  ∧ bound h D "Leaf" ∧ bound h D "Inner"
  ∧ ∃ h2 m,
      install_mapLeaf (SumType D) h = Ok h2 tt
      ∧ tree_program_at h2 D
      ∧ (∀ x v args, value_of h D x v args →
           value_of h2 D x v args ∧ get h2 x "mapLeaf" = VRef m)
      ∧ (∀ t x, rep h D t x → rep h2 D t x).
Proof.
  intros h D.
  assert (heap_wf h) as H1 by (apply heap_wfb_spec; evaluate).
  assert (factory_at h D) as H2 by factory_at_by_evaluation.
  assert (get h (SumType D) "prototype" = VRef (surface D)) as H3 by evaluate.
  assert (bound h D "Leaf") as H4 by bound_by_evaluation.
  assert (bound h D "Inner") as H5 by bound_by_evaluation.
  split; [exact H1|]. split; [exact H2|]. split; [exact H3|].
  split; [exact H4|]. split; [exact H5|].
  exact (install_mapLeaf_spec h D H1 H2 H3 H4 H5).
Defined.

Lemma static_property_unseen_witness :
  let h := scene_heap tree_scene in
  let D := scene_def tree_scene in
  let x := scene_value tree_scene in
  let c := default 0 (ctors D !! 1) in
  heap_wf h ∧ factory_at h D ∧ value_of h D x "Leaf" []
  ∧ h !! c = Some (ctor_cell "Inner" (Variant D))
  ∧ get (set h (SumType D) "of" (VRef c)) x "of" = get h x "of"
  ∧ get (set h c "of" (VRef c)) x "of" = get h x "of".
Proof.
  intros h D x c.
  assert (heap_wf h) as H1 by (apply heap_wfb_spec; evaluate).
  assert (factory_at h D) as H2 by factory_at_by_evaluation.
  assert (value_of h D x "Leaf" []) as H3 by evaluate.
  assert (h !! c = Some (ctor_cell "Inner" (Variant D))) as H4 by evaluate.
  split; [exact H1|]. split; [exact H2|]. split; [exact H3|]. split; [exact H4|].
  exact (static_property_unseen h D x "Leaf" [] c "Inner" "of" (VRef c) "of"
           H1 H2 H3 H4).
Defined.


Lemma cases_literal_witness :
  let h := scene_heap toString_scene in
  let x := scene_value toString_scene in
  let lit : gmap string value := {[ "_" := VRef fn_a ]} in
  let h' := (object_literal h lit).1 in
  let opts := (object_literal h lit).2 in
  heap_wf h ∧ tagged h x "toString" [VNum 1]
  ∧ cases h' x opts = Some (Call builtin_toString opts [VNum 1]).
Proof.
  intros h x lit h' opts.
  assert (heap_wf h) as H1 by (apply heap_wfb_spec; evaluate).
  assert (tagged h x "toString" [VNum 1]) as H2.
  { apply (value_of_tagged _ (scene_def toString_scene)). evaluate. }
  split; [exact H1|]. split; [exact H2|].
  unfold h', opts.
  rewrite (cases_literal h x "toString" [VNum 1] lit H1 H2). evaluate.
Defined.

Lemma definitions_independent_witness :
  let h := tree_def.1 in
  let A := tree_def.2 in
  let d := define h ["Leaf"; "Node"] in
  heap_wf h ∧ factory_at h A ∧ bound h A "Leaf"
  ∧ define h ["Leaf"; "Node"] = (d.1, d.2)
  ∧ "Leaf" ∈ ["Leaf"; "Node"]
  ∧ ∃ ca cb,
      get d.1 (SumType A) "Leaf" = VRef ca
      ∧ get d.1 (SumType d.2) "Leaf" = VRef cb
      ∧ ca ≠ cb
      ∧ d.1 !! ca = Some (ctor_cell "Leaf" (Variant A))
      ∧ d.1 !! cb = Some (ctor_cell "Leaf" (Variant d.2))
      ∧ Variant A ≠ Variant d.2
      ∧ variant_proto A ≠ variant_proto d.2
      ∧ factory_at d.1 A.
Proof.
  intros h A d.
  assert (heap_wf h) as H1 by (apply heap_wfb_spec; evaluate).
  assert (factory_at h A) as H2 by factory_at_by_evaluation.
  assert (bound h A "Leaf") as H3 by bound_by_evaluation.
  assert (define h ["Leaf"; "Node"] = (d.1, d.2)) as H4.
  { unfold d. by destruct (define _ _). }
  assert ("Leaf" ∈ ["Leaf"; "Node"]) as H5 by left.
  split; [exact H1|]. split; [exact H2|]. split; [exact H3|].
  split; [exact H4|]. split; [exact H5|].
  exact (definitions_independent h A ["Leaf"; "Node"] d.1 d.2 "Leaf"
           H1 H2 H3 H4 H5).
Defined.

Lemma mapLeaf_compose_witness :
  let h := res_heap test_scene in
  let D := res_def test_scene in
  let x := res_loc test_scene in
  tree_program_at h D ∧ rep h D test_tree x ∧ height test_tree < 5
  ∧ ∃ h1 y h2 z,
      call_mapLeaf (mapLeaf double (SumType D) 5) (VRef x) h = Ok h1 (VRef y)
      ∧ call_mapLeaf (mapLeaf double (SumType D) 5) (VRef y) h1 = Ok h2 (VRef z)
      ∧ rep h2 D (tmap (double ∘ double) test_tree) z
      ∧ rep h2 D (tmap double test_tree) y
      ∧ rep h2 D test_tree x.
Proof.
  intros h D x.
  assert (tree_program_at h D) as H1 by tree_program_by_evaluation.
  assert (rep h D test_tree x) as H2 by (do 2 eexists; repeat split; evaluate).
  assert (height test_tree < 5) as H3 by (vm_compute; lia).
  split; [exact H1|]. split; [exact H2|]. split; [exact H3|].
  exact (mapLeaf_compose double double D test_tree h x 5 H1 H2 H3).
Defined.

Lemma mapLeaf_inner_missing_child_witness :
  let h := res_heap childless_scene in
  let D := res_def childless_scene in
  let x := res_loc childless_scene in
  tree_program_at h D ∧ value_of h D x "Inner" []
  ∧ (arg 1 [] = VUndefined ∨ arg 1 [] = VNull)
  ∧ call_mapLeaf (mapLeaf double (SumType D) 1) (VRef x) h
    = Exn (TypeError "cannot read a property").
Proof.
  intros h D x.
  assert (tree_program_at h D) as H1 by tree_program_by_evaluation.
  assert (value_of h D x "Inner" []) as H2 by evaluate.
  assert (arg 1 [] = VUndefined ∨ arg 1 [] = VNull) as H3 by (left; reflexivity).
  split; [exact H1|]. split; [exact H2|]. split; [exact H3|].
  exact (mapLeaf_inner_missing_child double D h x [] 0 H1 H2 H3).
Defined.

Lemma mapLeaf_leaf_arity_witness :
  let h := res_heap wide_leaf_scene in
  let D := res_def wide_leaf_scene in
  let x := res_loc wide_leaf_scene in
  tree_program_at h D ∧ value_of h D x "Leaf" [VNum 1; VNum 2]
  ∧ ∃ h' y,
      call_mapLeaf (mapLeaf double (SumType D) 1) (VRef x) h = Ok h' (VRef y)
      ∧ value_of h' D y "Leaf" [VNum 2]
      ∧ extends h h'.
Proof.
  intros h D x.
  assert (tree_program_at h D) as H1 by tree_program_by_evaluation.
  assert (value_of h D x "Leaf" [VNum 1; VNum 2]) as H2 by evaluate.
  split; [exact H1|]. split; [exact H2|].
  exact (mapLeaf_leaf_arity double D h x [VNum 1; VNum 2] 0 H1 H2).
Defined.
